(** * The modal mediator: a shallow embedding of [modal-mediator.ts]

    The mediator keeps three private fields: a [Map] from modal identifier to
    a [ModalState] object, a [Set] of subscriber callbacks and the array
    [openOrder].  JavaScript objects are references, and the snapshot handed
    to subscribers is [new Map(this.modals)]: a fresh [Map] whose values are
    the very same [ModalState] objects.  The embedding therefore keeps an
    explicit object heap; a [Map<string, ModalState>] is a finite map from
    keys to heap locations. *)

From stdpp Require Import gmap strings list fin_maps.

(** ** Data *)

(** [interface ModalState { id: string; isOpen: boolean }] *)
Module ModalState.
Record t : Type := mk { id : string; isOpen : bool }.
End ModalState.

(** Heap locations of [ModalState] objects; objects are only ever allocated,
    so the heap is a growing list and the next free location is its length. *)
Abbreviation loc := nat.

(** A subscriber is a function reference; [Set] membership is by identity. *)
Abbreviation ModalSubscriber := nat.

(** A [Map<string, ModalState>] object: keys to object references. *)
Abbreviation ModalMap := (gmap string loc).

(** What a reader of a map sees when following the references. *)
Abbreviation Contents := (gmap string ModalState.t).

(** [class ModalMediatorService]: the three private fields. *)
Record ModalMediatorService : Type := mkService {
  modals : ModalMap;
  subscribers : list ModalSubscriber;
  openOrder : list string
}.

(** One call of a subscriber, with what the map it received showed at the
    moment of the call. *)
Record Invocation : Type := mkInvocation {
  callee : ModalSubscriber;
  received : Contents
}.

(** The program state: the object heap, the singleton [ModalMediator] and the
    record of every subscriber call made so far. *)
Record World : Type := mkWorld {
  heap : list ModalState.t;
  this : ModalMediatorService;
  calls : list Invocation
}.

(** ** Subscribers

    The body of a subscriber is caller code.  A subscriber may do to the map
    it is handed whatever the type [Map<string, ModalState>] allows, and may
    throw; it does not call back into the mediator. *)
Inductive SnapshotAction : Type :=
  | MapSet (k : string) (v : ModalState.t)   (* m.set(k, {id, isOpen}) *)
  | MapDelete (k : string)                   (* m.delete(k) *)
  | MapClear                                 (* m.clear() *)
  | EntryAssign (k : string) (b : bool).     (* const e = m.get(k); if (e) e.isOpen = b *)

Record Callback : Type := mkCallback {
  actions : list SnapshotAction;
  throws : bool
}.

Definition assignsEntry (a : SnapshotAction) : bool :=
  match a with EntryAssign _ _ => true | _ => false end.

(** A callback that leaves the objects it is shown alone. *)
Definition respectful (cb : Callback) : Prop :=
  forallb (λ a, negb (assignsEntry a)) (actions cb) = true.

(** ** Completions and the operation monad *)

(** A call either returns or throws; the exception carries the subscriber
    that raised it. *)
Inductive Completion (A : Type) : Type :=
  | Returned (a : A)
  | Thrown (by_whom : ModalSubscriber).
Arguments Returned {A} a.
Arguments Thrown {A} by_whom.

Definition Op (A : Type) : Type := World → Completion A * World.

Definition ret {A} (a : A) : Op A := λ w, (Returned a, w).

Definition bind {A B} (m : Op A) (k : A → Op B) : Op B := λ w,
  match m w with
  | (Returned a, w') => k a w'
  | (Thrown s, w') => (Thrown s, w')
  end.

Notation "'let!' x ':=' m 'in' k" := (bind m (λ x, k))
  (at level 10, x name, m at level 100, k at level 200, only parsing).
Notation "'do!' m 'in' k" := (bind m (λ _, k))
  (at level 10, m at level 100, k at level 200, only parsing).

Definition gets {A} (f : World → A) : Op A := λ w, (Returned (f w), w).
Definition modify (f : World → World) : Op unit := λ w, (Returned tt, f w).

(** Field updates. *)
Definition setModals (f : ModalMap → ModalMap) (w : World) : World :=
  mkWorld (heap w)
    (mkService (f (modals (this w))) (subscribers (this w)) (openOrder (this w)))
    (calls w).

Definition setSubscribers (f : list ModalSubscriber → list ModalSubscriber) (w : World) : World :=
  mkWorld (heap w)
    (mkService (modals (this w)) (f (subscribers (this w))) (openOrder (this w)))
    (calls w).

Definition setOpenOrder (f : list string → list string) (w : World) : World :=
  mkWorld (heap w)
    (mkService (modals (this w)) (subscribers (this w)) (f (openOrder (this w))))
    (calls w).

Definition setHeap (f : list ModalState.t → list ModalState.t) (w : World) : World :=
  mkWorld (f (heap w)) (this w) (calls w).

Definition record (c : Invocation) (w : World) : World :=
  mkWorld (heap w) (this w) (calls w ++ [c]).

(** Object allocation: an object literal evaluates to a fresh reference. *)
Definition alloc (o : ModalState.t) : Op loc := λ w,
  (Returned (length (heap w)), setHeap (λ h, h ++ [o]) w).

(** Following the references of a map. *)
Definition contents (h : list ModalState.t) (m : ModalMap) : Contents :=
  omap (λ l, h !! l) m.

(** [Set.prototype.add] and [Set.prototype.delete] on an insertion-ordered
    set of references. *)
Definition setAdd (s : ModalSubscriber) (l : list ModalSubscriber) : list ModalSubscriber :=
  if decide (s ∈ l) then l else l ++ [s].

Definition setDelete (s : ModalSubscriber) (l : list ModalSubscriber) : list ModalSubscriber :=
  filter (λ x, x ≠ s) l.

(** The handle returned by [subscribe]: the closure
    [() => { this.subscribers.delete(subscriber) }]. *)
Inductive Unsubscribe : Type :=
  | UnsubscribeOf (subscriber : ModalSubscriber).

(** A [keydown] event, as far as the listener looks at it. *)
Record KeyboardEvent : Type := mkKeyboardEvent { key : string }.

(** JavaScript truthiness of a [string | null]: [null] and the empty string
    are falsy. *)
Definition truthy (v : option string) : bool :=
  match v with
  | None => false
  | Some s => negb (String.eqb s "")
  end.

(** ** The mediator's methods *)

Section Mediator.

(** The body of each subscriber; it may depend on the calls made so far
    (a closure with state of its own). *)
Variable code : ModalSubscriber → list Invocation → Callback.

(** One statement of a subscriber body, run on the map [m] it was given. *)
Definition perform (a : SnapshotAction) (m : ModalMap) : Op ModalMap :=
  match a with
  | MapSet k v => let! l := alloc v in ret (<[k := l]> m)
  | MapDelete k => ret (delete k m)
  | MapClear => ret ∅
  | EntryAssign k b =>
      match m !! k with
      | Some l =>
          do! modify (setHeap (λ h,
                match h !! l with
                | Some e => <[l := ModalState.mk (ModalState.id e) b]> h
                | None => h
                end)) in
          ret m
      | None => ret m
      end
  end.

Fixpoint performAll (acts : list SnapshotAction) (m : ModalMap) : Op ModalMap :=
  match acts with
  | [] => ret m
  | a :: rest => let! m' := perform a m in performAll rest m'
  end.

(** The call [subscriber(m)].  The map is passed by reference: what the
    subscriber did to it is what the next holder of the reference sees. *)
Definition invoke (subscriber : ModalSubscriber) (m : ModalMap) : Op ModalMap := λ w,
  let body := code subscriber (calls w) in
  bind (do! modify (record (mkInvocation subscriber (contents (heap w) m))) in
        performAll (actions body) m)
       (λ m', if throws body then (λ w', (Thrown subscriber, w')) else ret m') w.

(** [this.subscribers.forEach(subscriber => subscriber(modalsCopy))]:
    insertion order, the same map object for every subscriber. *)
Fixpoint forEach (subs : list ModalSubscriber) (modalsCopy : ModalMap) : Op unit :=
  match subs with
  | [] => ret tt
  | subscriber :: rest =>
      let! modalsCopy' := invoke subscriber modalsCopy in
      forEach rest modalsCopy'
  end.

(** [isModalOpen(id)] *)
Definition lookupModal (w : World) (id : string) : option ModalState.t :=
  modals (this w) !! id ≫= λ l, heap w !! l.

Definition isModalOpen (id : string) : Op bool :=
  let! modal := gets (λ w, lookupModal w id) in
  ret (match modal with Some m => ModalState.isOpen m | None => false end).

(** [getLastOpenModal()]: the loop [for (i = length - 1; i >= 0; i--)],
    entered with [n = i + 1]. *)
Fixpoint scanOpenOrder (n : nat) : Op (option string) :=
  match n with
  | 0 => ret None
  | S i =>
      let! slot := gets (λ w, openOrder (this w) !! i) in
      match slot with
      | Some modalId =>
          let! open := isModalOpen modalId in
          if open then ret (Some modalId) else scanOpenOrder i
      | None => scanOpenOrder i
      end
  end.

Definition getLastOpenModal : Op (option string) :=
  let! n := gets (λ w, length (openOrder (this w))) in
  scanOpenOrder n.

(** [notify()] *)
Definition notify : Op unit :=
  let! modalsCopy := gets (λ w, modals (this w)) in
  let! subs := gets (λ w, subscribers (this w)) in
  forEach subs modalsCopy.

(** [subscribe(subscriber)] *)
Definition subscribe (subscriber : ModalSubscriber) : Op Unsubscribe :=
  do! modify (setSubscribers (setAdd subscriber)) in
  let! snapshot := gets (λ w, modals (this w)) in
  do! invoke subscriber snapshot in
  ret (UnsubscribeOf subscriber).

(** Calling the handle returned by [subscribe]. *)
Definition unsubscribe (handle : Unsubscribe) : Op unit :=
  match handle with
  | UnsubscribeOf subscriber => modify (setSubscribers (setDelete subscriber))
  end.

(** [openModal(id)] *)
Definition openModal (id : string) : Op unit :=
  let! l := alloc (ModalState.mk id true) in
  do! modify (setModals <[id := l]>) in
  do! modify (setOpenOrder (λ o, filter (λ modalId, modalId ≠ id) o)) in
  do! modify (setOpenOrder (λ o, o ++ [id])) in
  notify.

(** [closeModal(id)].  The references kept in [modals] always point to
    allocated objects (see [wf] below), so the second [None] branch is
    never taken. *)
Definition closeModal (id : string) : Op unit :=
  let! slot := gets (λ w, modals (this w) !! id) in
  match slot with
  | Some cur =>
      let! currentModal := gets (λ w, heap w !! cur) in
      match currentModal with
      | Some m =>
          let! l := alloc (ModalState.mk (ModalState.id m) false) in
          do! modify (setModals <[id := l]>) in
          notify
      | None => ret tt
      end
  | None => ret tt
  end.

(** The [keydown] listener installed by the constructor. *)
Definition onKeydown (event : KeyboardEvent) : Op unit :=
  if String.eqb (key event) "Escape" then
    let! lastOpenModal := getLastOpenModal in
    if truthy lastOpenModal then
      match lastOpenModal with
      | Some modalId => closeModal modalId
      | None => ret tt
      end
    else ret tt
  else ret tt.

(** ** Callers

    Each request is one top-level call from the outside (an event handler
    or a component effect).  An exception ends that call only: the state
    it leaves behind is the state the next call starts from. *)
Inductive Request : Type :=
  | OpenModal (id : string)
  | CloseModal (id : string)
  | Keydown (event : KeyboardEvent)
  | Subscribe (subscriber : ModalSubscriber)
  | CallUnsubscribe (handle : Unsubscribe).

Definition serve (r : Request) : Op unit :=
  match r with
  | OpenModal id => openModal id
  | CloseModal id => closeModal id
  | Keydown event => onKeydown event
  | Subscribe subscriber => do! subscribe subscriber in ret tt
  | CallUnsubscribe handle => unsubscribe handle
  end.

Definition run (rs : list Request) (w : World) : World :=
  fold_left (λ w r, (serve r w).2) rs w.

End Mediator.

(** [new ModalMediatorService()] in an empty heap. *)
Definition initial : World :=
  mkWorld [] (mkService ∅ [] []) [].

(** ** Vocabulary of the statements *)

(** Objects are never freed and their [id] field is never assigned. *)
Definition same_ids (h h' : list ModalState.t) : Prop :=
  ∀ l m, h !! l = Some m →
    ∃ m', h' !! l = Some m' ∧ ModalState.id m' = ModalState.id m.

(** The representation invariant of the mediator: the subscriber set has no
    duplicates, and every reference stored under a key points to an
    allocated object carrying that key as its [id]. *)
Record wf (w : World) : Prop := mkWf {
  wf_subscribers : NoDup (subscribers (this w));
  wf_refs : ∀ k l, modals (this w) !! k = Some l →
      ∃ m, heap w !! l = Some m ∧ ModalState.id m = k
}.

(** The answer of [isModalOpen] as a function of the state. *)
Definition isOpenIn (w : World) (id : string) : bool :=
  match lookupModal w id with
  | Some m => ModalState.isOpen m
  | None => false
  end.

(** The subscriber calls made between [w] and a later world [w']. *)
Definition newCalls (w w' : World) : list Invocation :=
  drop (length (calls w)) (calls w').

(** How often [s] was called in a stretch of the call record. *)
Definition timesCalled (s : ModalSubscriber) (cs : list Invocation) : nat :=
  length (filter (λ c, callee c = s) cs).

(** One fan-out over the subscriber list [subs], started when the call
    record was [base]: [new] are the calls it made and [o] how it ended.
    The subscribers are called in order, each once; a call that throws is
    the last one, and its exception is the completion of the fan-out. *)
Record fanout (code : ModalSubscriber → list Invocation → Callback)
    (subs : list ModalSubscriber) (base new : list Invocation)
    (o : Completion unit) : Prop := mkFanout {
  fo_prefix : map callee new `prefix_of` subs;
  fo_returned : o = Returned tt → map callee new = subs;
  fo_thrown : ∀ s, o = Thrown s →
      ∃ pre inv, new = pre ++ [inv] ∧ callee inv = s ∧
                 throws (code s (base ++ pre)) = true;
  fo_fatal : ∀ pre inv post, new = pre ++ inv :: post →
      throws (code (callee inv) (base ++ pre)) = true →
      post = [] ∧ o = Thrown (callee inv)
}.

(** A stretch of execution of subscriber code: the mediator's fields are out
    of its reach; under the condition [strict] no existing object is
    written either. *)
Definition allRespectful (code : ModalSubscriber → list Invocation → Callback) : Prop :=
  ∀ s h, respectful (code s h).

Record subscriberStep (strict : Prop) (w w' : World) : Prop := mkSubscriberStep {
  ss_this : this w' = this w;
  ss_ids : same_ids (heap w) (heap w');
  ss_length : length (heap w) ≤ length (heap w');
  ss_prefix : strict → heap w `prefix_of` heap w'
}.

(** The calls made between [w] and the result [r] are fail-fast: a call
    whose body throws is the last call made, and its exception is the
    completion of the whole operation. *)
Definition failFast (code : ModalSubscriber → list Invocation → Callback)
    {A} (w : World) (r : Completion A * World) : Prop :=
  (∀ pre inv post, newCalls w r.2 = pre ++ inv :: post →
     throws (code (callee inv) (calls w ++ pre)) = true →
     post = [] ∧ r.1 = Thrown (callee inv)) ∧
  (∀ s, r.1 = Thrown s →
     ∃ pre inv, newCalls w r.2 = pre ++ [inv] ∧ callee inv = s ∧
                throws (code s (calls w ++ pre)) = true).

(** ** Sample subscribers and states *)

(** Subscribers that only look. *)
Definition quietCode : ModalSubscriber → list Invocation → Callback :=
  λ _ _, mkCallback [] false.

(** Subscriber [2] throws whenever it is called; the others only look. *)
Definition throwingCode : ModalSubscriber → list Invocation → Callback :=
  λ s _, mkCallback [] (Nat.eqb s 2).

(** Subscriber [1] runs [m.get("a").isOpen = false] on the map it is given
    (when the entry is there); the others only look. *)
Definition meddlingCode : ModalSubscriber → list Invocation → Callback :=
  λ s _, if Nat.eqb s 1 then mkCallback [EntryAssign "a" false] false
         else mkCallback [] false.

Definition escape : KeyboardEvent := mkKeyboardEvent "Escape".

(** Modal ["a"] open, modal ["b"] opened and closed again, subscribers [1]
    and [3] registered. *)
Definition sampleRequests : list Request :=
  [OpenModal "a"; Subscribe 1; OpenModal "b"; Subscribe 3; CloseModal "b"].

(** ** The consumers of the mediator *)

(** [use-modal-subscription.ts]: the subscriber the hook registers,
    [modals => { const modal = modals.get(modalId);
                 setIsOpen(modal ? modal.isOpen : false) }],
    as the value it passes to [setIsOpen] for the map it is shown. *)
Definition hookSubscriber (modalId : string) (modals : Contents) : bool :=
  match modals !! modalId with
  | Some modal => ModalState.isOpen modal
  | None => false
  end.

(** [composable-modal.tsx]: a child of the backdrop, as far as
    [child => React.isValidElement(child) && child.type === ModalComponent]
    and [modalChild?.props.id] look at it. *)
Inductive ReactNode : Type :=
  | ModalElement (id : string)   (* <ComposableModal id=...> *)
  | OtherElement                 (* an element of another type *)
  | TextNode (text : string).    (* not an element *)

(** A click, as far as the backdrop's handler looks at it:
    [event.target === event.currentTarget]. *)
Record MouseEvent : Type := mkMouseEvent { targetIsCurrentTarget : bool }.

(** [React.Children.toArray(children).find(...)?.props.id] *)
Fixpoint findModalChild (children : list ReactNode) : option string :=
  match children with
  | [] => None
  | ModalElement id :: _ => Some id
  | _ :: rest => findModalChild rest
  end.

Section Consumers.

Variable code : ModalSubscriber → list Invocation → Callback.

(** [use-modal-subscription.ts]: the initialiser passed to [useState]. *)
Definition hookInitialState (modalId : string) (defaultOpen : bool) : Op bool :=
  let! currentState := isModalOpen modalId in
  if negb currentState && defaultOpen then
    do! openModal code modalId in
    ret true
  else ret currentState.

(** [composable-modal.tsx]: [handleBackdropClick] of [ModalBackdrop]; the
    [onClick] prop, when given, is caller code. *)
Definition handleBackdropClick (children : list ReactNode)
    (onClick : option (Op unit)) (event : MouseEvent) : Op unit :=
  let modalId := findModalChild children in
  if targetIsCurrentTarget event && truthy modalId then
    match onClick with
    | Some handler => handler
    | None =>
        match modalId with
        | Some id => closeModal code id
        | None => ret tt
        end
    end
  else ret tt.

End Consumers.

(** ** Further vocabulary *)

(** The panels that are open, oldest opening first. *)
Definition openPanels (w : World) : list string :=
  filter (λ k, isOpenIn w k = true) (openOrder (this w)).

(** Subscribers that only read the map they are given and never throw, as
    the hook's subscriber does. *)
Definition passive (code : ModalSubscriber → list Invocation → Callback) : Prop :=
  ∀ s h, code s h = mkCallback [] false.

(** The last call made to subscriber [s]. *)
Definition lastCall (s : ModalSubscriber) (cs : list Invocation) : option Invocation :=
  last (filter (λ c, callee c = s) cs).

(** Every registered subscriber has been called, and what its last call was
    shown is what the store holds now. *)
Definition informed (w : World) : Prop :=
  ∀ s, s ∈ subscribers (this w) →
    ∃ c, lastCall s (calls w) = Some c ∧
         received c = contents (heap w) (modals (this w)).

(** The requests that can change what [isModalOpen(id)] answers in [w]:
    opening or closing [id], and the dismissal signal while [id] is the
    panel it would close. *)
Definition concerns (w : World) (id : string) (r : Request) : Prop :=
  match r with
  | OpenModal k | CloseModal k => k = id
  | Keydown _ => last (filter (λ k, isOpenIn w k = true) (openOrder (this w))) = Some id
  | Subscribe _ | CallUnsubscribe _ => False
  end.

(** Subscriber [1] runs [m.delete("a")] on the map it is given; the others
    only look. *)
Definition deletingCode : ModalSubscriber → list Invocation → Callback :=
  λ s _, if Nat.eqb s 1 then mkCallback [MapDelete "a"] false
         else mkCallback [] false.

(** * Properties *)

Lemma same_ids_refl h : same_ids h h.
Proof. intros l m Hl. eauto. Qed.

Lemma same_ids_trans h1 h2 h3 :
  same_ids h1 h2 → same_ids h2 h3 → same_ids h1 h3.
Proof.
  intros H12 H23 l m Hl.
  destruct (H12 l m Hl) as (m2 & Hl2 & Hid2).
  destruct (H23 l m2 Hl2) as (m3 & Hl3 & Hid3).
  exists m3. split; [done | congruence].
Qed.

Lemma same_ids_prefix h h' : h `prefix_of` h' → same_ids h h'.
Proof.
  intros Hp l m Hl. exists m. split; [| done].
  by eapply prefix_lookup_Some.
Qed.

Lemma subscriberStep_refl strict w : subscriberStep strict w w.
Proof. split; [done | apply same_ids_refl | lia | done]. Qed.

Lemma subscriberStep_trans strict w1 w2 w3 :
  subscriberStep strict w1 w2 → subscriberStep strict w2 w3 →
  subscriberStep strict w1 w3.
Proof.
  intros [T1 I1 L1 P1] [T2 I2 L2 P2]. split.
  - congruence.
  - by eapply same_ids_trans.
  - lia.
  - intros Hs. etrans; [by apply P1 | by apply P2].
Qed.

Lemma setAdd_NoDup s l : NoDup l → NoDup (setAdd s l).
Proof.
  intros Hl. unfold setAdd. case_decide; [done |].
  apply NoDup_app. split; [done |]. split; [| apply NoDup_singleton].
  intros x Hx ->%list_elem_of_singleton. done.
Qed.

Lemma setAdd_elem s l x : x ∈ setAdd s l ↔ x = s ∨ x ∈ l.
Proof.
  unfold setAdd. case_decide.
  - split; [auto | intros [-> |]; done].
  - rewrite elem_of_app, list_elem_of_singleton. tauto.
Qed.


Lemma setDelete_NoDup s l : NoDup l → NoDup (setDelete s l).
Proof. apply NoDup_filter. Qed.

Lemma setDelete_elem s l x : x ∈ setDelete s l ↔ x ≠ s ∧ x ∈ l.
Proof. unfold setDelete. by rewrite list_elem_of_filter. Qed.

Lemma setDelete_idem s l : setDelete s (setDelete s l) = setDelete s l.
Proof.
  unfold setDelete. induction l as [| x l IH]; [done |].
  rewrite filter_cons. case_decide as Hx; [| done].
  rewrite filter_cons_True by done. by rewrite IH.
Qed.

Lemma wf_initial : wf initial.
Proof. split; simpl; [apply NoDup_nil_2 | intros k l Hl; by rewrite lookup_empty in Hl]. Qed.

Lemma wf_subscriberStep P w w' : wf w → subscriberStep P w w' → wf w'.
Proof.
  intros [Hs Hr] [T I L Pf]. split; rewrite T; [done |].
  intros k l Hk. destruct (Hr k l Hk) as (m & Hl & Hid).
  destruct (I l m Hl) as (m' & Hl' & Hid'). exists m'. split; [done | congruence].
Qed.

(** Storing a freshly allocated object under its own key keeps the
    invariant. *)
Lemma wf_store_fresh k o order cs w :
  wf w → ModalState.id o = k →
  wf (mkWorld (heap w ++ [o])
        (mkService (<[k := length (heap w)]> (modals (this w)))
           (subscribers (this w)) order) cs).
Proof.
  intros [Hs Hr] Hid. split; simpl; [done |].
  intros k' l Hk'. destruct (decide (k = k')) as [<- | Hne].
  - rewrite lookup_insert_eq in Hk'. injection Hk' as <-.
    exists o. split; [| done]. by rewrite lookup_app_r, Nat.sub_diag.
  - rewrite lookup_insert_ne in Hk' by done.
    destruct (Hr k' l Hk') as (m & Hl & Hm). exists m.
    split; [by apply lookup_app_l_Some | done].
Qed.

Lemma newCalls_app w w' new : calls w' = calls w ++ new → newCalls w w' = new.
Proof. intros H. unfold newCalls. by rewrite H, drop_app_length. Qed.

Lemma timesCalled_app s cs1 cs2 :
  timesCalled s (cs1 ++ cs2) = timesCalled s cs1 + timesCalled s cs2.
Proof. unfold timesCalled. by rewrite filter_app, length_app. Qed.

Lemma timesCalled_absent s cs : s ∉ map callee cs → timesCalled s cs = 0.
Proof.
  unfold timesCalled. induction cs as [| c cs IH]; simpl; [done |].
  intros Hs. apply not_elem_of_cons in Hs as [Hne Hs].
  rewrite filter_cons_False by (simpl; congruence). by apply IH.
Qed.

Lemma timesCalled_NoDup s cs :
  NoDup (map callee cs) → s ∈ map callee cs → timesCalled s cs = 1.
Proof.
  unfold timesCalled. induction cs as [| c cs IH]; simpl.
  - intros _ Hs. by apply elem_of_nil in Hs.
  - intros [Hc Hnd]%NoDup_cons Hs. destruct (decide (callee c = s)) as [<- | Hne].
    + rewrite filter_cons_True by done. simpl. f_equal. by apply timesCalled_absent.
    + rewrite filter_cons_False by done. apply IH; [done |].
      apply elem_of_cons in Hs as [-> |]; done.
Qed.

Lemma NoDup_prefix {A} (l k : list A) : l `prefix_of` k → NoDup k → NoDup l.
Proof. intros [t ->] H. by apply NoDup_app in H as [? _]. Qed.

Lemma occurrences_after_removal (id : string) (l : list string) :
  filter (λ x, x = id) (filter (λ x, x ≠ id) l) = [].
Proof.
  induction l as [| x l IH]; [done |].
  rewrite (filter_cons (λ x, x ≠ id)). case_decide as Hx; [| done].
  by rewrite filter_cons_False.
Qed.

(** An entry whose reference is kept reads the same in a grown heap. *)
Lemma lookupModal_frame w w' k :
  wf w → heap w `prefix_of` heap w' →
  modals (this w') !! k = modals (this w) !! k →
  lookupModal w' k = lookupModal w k.
Proof.
  intros Hwf Hp Hk. unfold lookupModal. rewrite Hk.
  destruct (modals (this w) !! k) as [l |] eqn:Hl; simpl; [| done].
  destruct (wf_refs w Hwf k l Hl) as (m & Hm & _). rewrite Hm.
  by eapply prefix_lookup_Some.
Qed.

Lemma lookupModal_fresh w w' k o :
  heap w ++ [o] `prefix_of` heap w' →
  modals (this w') !! k = Some (length (heap w)) →
  lookupModal w' k = Some o.
Proof.
  intros Hp Hk. unfold lookupModal. rewrite Hk. simpl.
  eapply prefix_lookup_Some; [| done]. by rewrite lookup_app_r, Nat.sub_diag.
Qed.

Lemma lookupModal_wf w k m :
  wf w → lookupModal w k = Some m → ModalState.id m = k.
Proof.
  intros Hwf. unfold lookupModal.
  destruct (modals (this w) !! k) as [l |] eqn:Hl; simpl; [| done].
  destruct (wf_refs w Hwf k l Hl) as (m0 & Hm0 & Hid). rewrite Hm0. congruence.
Qed.




Section SubscriberCode.

Variable code : ModalSubscriber → list Invocation → Callback.

Lemma perform_spec a m w :
  ∃ m', perform a m w = (Returned m', (perform a m w).2) ∧
        calls (perform a m w).2 = calls w ∧
        subscriberStep (assignsEntry a = false) w (perform a m w).2.
Proof.
  destruct a as [k v | k | | k b]; simpl.
  - eexists. split; [reflexivity |]. split; [done |].
    split; simpl; [done | | rewrite length_app; lia | intros _; by apply prefix_app_r].
    apply same_ids_prefix. by apply prefix_app_r.
  - eexists. split; [reflexivity |]. split; [done | apply subscriberStep_refl].
  - eexists. split; [reflexivity |]. split; [done | apply subscriberStep_refl].
  - destruct (m !! k) as [l |] eqn:Hk; simpl.
    + eexists. split; [reflexivity |]. split; [done |].
      split; simpl; [done | | | done].
      * intros l' e Hl'. destruct (heap w !! l) as [e0 |] eqn:Hl; [| eauto].
        destruct (decide (l = l')) as [-> |].
        -- rewrite list_lookup_insert_eq; [| by eapply lookup_lt_Some].
           eexists. split; [done |]. simpl. congruence.
        -- rewrite list_lookup_insert_ne; eauto.
      * destruct (heap w !! l); [rewrite length_insert |]; lia.
    + eexists. split; [reflexivity |]. split; [done | apply subscriberStep_refl].
Qed.

Lemma performAll_spec acts m w :
  ∃ m', performAll acts m w = (Returned m', (performAll acts m w).2) ∧
        calls (performAll acts m w).2 = calls w ∧
        subscriberStep (forallb (λ a, negb (assignsEntry a)) acts = true)
          w (performAll acts m w).2.
Proof.
  revert m w. induction acts as [| a acts IH]; intros m w; simpl.
  - eexists. split; [reflexivity |]. split; [done | apply subscriberStep_refl].
  - unfold bind. destruct (perform_spec a m w) as (m1 & E1 & C1 & S1).
    rewrite E1. destruct (IH m1 (perform a m w).2) as (m2 & E2 & C2 & S2).
    exists m2. split; [by rewrite E2 at 1 |]. split; [congruence |].
    destruct S1 as [T1 I1 L1 P1], S2 as [T2 I2 L2 P2]. split.
    + congruence.
    + by eapply same_ids_trans.
    + lia.
    + intros [Ha Hacts]%andb_prop. apply negb_true_iff in Ha.
      etrans; [by apply P1 | by apply P2].
Qed.

(** A call of a subscriber adds exactly one entry to the call record,
    showing the map as it was on entry, and completes as the body says. *)
Lemma invoke_spec s m w :
  let body := code s (calls w) in
  let r := invoke code s m w in
  calls r.2 = calls w ++ [mkInvocation s (contents (heap w) m)] ∧
  subscriberStep (respectful body) w r.2 ∧
  (if throws body then r.1 = Thrown s else ∃ m', r.1 = Returned m').
Proof.
  intros body r. subst r. unfold invoke. fold body.
  unfold bind, modify. set (w1 := record _ w).
  destruct (performAll_spec (actions body) m w1) as (m' & E & C & S).
  rewrite E. destruct S as [T I L P].
  assert (subscriberStep (respectful body)
            w (performAll (actions body) m w1).2) as S' by (by split).
  destruct (throws body); simpl; rewrite C; eauto.
Qed.

Lemma subscriberStep_weaken (P Q : Prop) w w' :
  (Q → P) → subscriberStep P w w' → subscriberStep Q w w'.
Proof. intros HQP [T I L Pf]. split; auto. Qed.

(** [forEach] is one fan-out. *)
Lemma forEach_spec subs m w :
  let r := forEach code subs m w in
  ∃ new, calls r.2 = calls w ++ new ∧
         fanout code subs (calls w) new r.1 ∧
         subscriberStep (allRespectful code) w r.2.
Proof.
  revert m w. induction subs as [| s subs IH]; intros m w; simpl.
  - exists []. rewrite app_nil_r. split; [done |]. split.
    + split; [done | done | intros s [=] |].
      intros pre inv post Hnil. by destruct pre.
    + apply subscriberStep_refl.
  - unfold bind.
    destruct (invoke_spec s m w) as (C1 & S1 & O1).
    apply (subscriberStep_weaken _ (allRespectful code)) in S1; [| by intros H].
    destruct (invoke code s m w) as [[m1 | e] w1] eqn:E1; simpl in *.
    + assert (throws (code s (calls w)) = false) as Hquiet.
      { destruct (throws (code s (calls w))); [done | done]. }
      destruct (IH m1 w1) as (new & C2 & F2 & S2).
      exists (mkInvocation s (contents (heap w) m) :: new).
      split; [rewrite C2, C1, <- app_assoc; done |]. split.
      * destruct F2 as [Fp Fr Ft Ff]. split; simpl.
        -- by apply prefix_cons.
        -- intros Ho. by rewrite Fr.
        -- intros s' Ho. destruct (Ft s' Ho) as (pre & inv & -> & Hc & Ht).
           exists (mkInvocation s (contents (heap w) m) :: pre), inv.
           split; [done |]. split; [done |].
           rewrite C1, <- app_assoc in Ht. done.
        -- intros pre inv post Hnew Ht. destruct pre as [| c pre]; simpl in *.
           ++ injection Hnew as <- <-. rewrite app_nil_r in Ht. simpl in Ht. congruence.
           ++ injection Hnew as <- ->. apply (Ff pre inv post); [done |].
              rewrite C1, <- app_assoc. done.
      * by eapply subscriberStep_trans.
    + destruct (throws (code s (calls w))) eqn:Ht; [| by destruct O1].
      injection O1 as ->.
      exists [mkInvocation s (contents (heap w) m)].
      split; [done |]. split; [| done].
      split; simpl.
      * apply prefix_cons, prefix_nil.
      * intros [=].
      * intros s' [= <-]. exists [], (mkInvocation s (contents (heap w) m)).
        rewrite app_nil_r. done.
      * intros pre inv post Hnew Ht'. destruct pre as [| c pre]; simpl in *.
        -- by injection Hnew as <- <-.
        -- injection Hnew as _ Hnil. by destruct pre.
Qed.

Lemma notify_unfold w :
  notify code w = forEach code (subscribers (this w)) (modals (this w)) w.
Proof. reflexivity. Qed.

Lemma notify_spec w :
  let r := notify code w in
  ∃ new, calls r.2 = calls w ++ new ∧
         fanout code (subscribers (this w)) (calls w) new r.1 ∧
         subscriberStep (allRespectful code) w r.2.
Proof. simpl. rewrite notify_unfold. apply forEach_spec. Qed.

Lemma openModal_unfold id w :
  openModal code id w =
  notify code
    (mkWorld (heap w ++ [ModalState.mk id true])
       (mkService (<[id := length (heap w)]> (modals (this w)))
          (subscribers (this w))
          (filter (λ modalId, modalId ≠ id) (openOrder (this w)) ++ [id]))
       (calls w)).
Proof. reflexivity. Qed.

Lemma closeModal_absent id w :
  modals (this w) !! id = None → closeModal code id w = (Returned tt, w).
Proof. intros H. unfold closeModal, bind, gets. simpl. by rewrite H. Qed.

Lemma closeModal_present id w cur m :
  modals (this w) !! id = Some cur → heap w !! cur = Some m →
  closeModal code id w =
  notify code
    (mkWorld (heap w ++ [ModalState.mk (ModalState.id m) false])
       (mkService (<[id := length (heap w)]> (modals (this w)))
          (subscribers (this w)) (openOrder (this w)))
       (calls w)).
Proof.
  intros Hid Hcur. unfold closeModal, bind, gets. simpl.
  rewrite Hid. simpl. by rewrite Hcur.
Qed.

Lemma subscribe_unfold s w :
  subscribe code s w =
  match invoke code s (modals (this w)) (setSubscribers (setAdd s) w) with
  | (Returned _, w') => (Returned (UnsubscribeOf s), w')
  | (Thrown e, w') => (Thrown e, w')
  end.
Proof. reflexivity. Qed.

Lemma isModalOpen_spec id w :
  isModalOpen id w = (Returned (isOpenIn w id), w).
Proof. reflexivity. Qed.

(** [getLastOpenModal] reads only: it returns the last identifier of
    [openOrder] that is open. *)
Lemma scanOpenOrder_spec n w :
  n ≤ length (openOrder (this w)) →
  scanOpenOrder n w =
  (Returned (last (filter (λ k, isOpenIn w k = true) (take n (openOrder (this w))))), w).
Proof.
  induction n as [| i IH]; intros Hn; cbn [scanOpenOrder].
  - reflexivity.
  - unfold bind at 1, gets at 1. cbn beta iota.
    destruct (lookup_lt_is_Some_2 (openOrder (this w)) i) as [k Hk]; [lia |].
    rewrite Hk, (take_S_r _ _ _ Hk), filter_app.
    unfold bind. rewrite isModalOpen_spec.
    destruct (isOpenIn w k) eqn:Hopen.
    + rewrite filter_cons_True by done. by rewrite filter_nil, last_snoc.
    + rewrite filter_cons_False by (rewrite Hopen; done).
      rewrite filter_nil, app_nil_r. apply IH. lia.
Qed.

Lemma getLastOpenModal_spec w :
  getLastOpenModal w =
  (Returned (last (filter (λ k, isOpenIn w k = true) (openOrder (this w)))), w).
Proof.
  unfold getLastOpenModal, bind, gets. simpl.
  rewrite scanOpenOrder_spec by done. by rewrite firstn_all.
Qed.

Lemma onKeydown_other event w :
  key event ≠ "Escape" → onKeydown code event w = (Returned tt, w).
Proof.
  intros Hk. unfold onKeydown.
  destruct (String.eqb_spec (key event) "Escape"); [done | done].
Qed.

Lemma onKeydown_escape event w :
  key event = "Escape" →
  onKeydown code event w =
  match last (filter (λ k, isOpenIn w k = true) (openOrder (this w))) with
  | Some modalId =>
      if String.eqb modalId "" then (Returned tt, w) else closeModal code modalId w
  | None => (Returned tt, w)
  end.
Proof.
  intros Hk. unfold onKeydown. rewrite Hk. simpl.
  unfold bind. rewrite getLastOpenModal_spec.
  destruct (last _) as [modalId |]; simpl; [| done].
  by destruct (String.eqb modalId "").
Qed.

(** *** What each method does to the mediator's fields and to the call
    record *)


Lemma fanout_at_most_once subs base new o s :
  NoDup subs → fanout code subs base new o → timesCalled s new ≤ 1.
Proof.
  intros Hnd F. pose proof (NoDup_prefix _ _ (fo_prefix _ _ _ _ _ F) Hnd) as Hnew.
  destruct (decide (s ∈ map callee new)).
  - rewrite timesCalled_NoDup; [lia | done | done].
  - rewrite timesCalled_absent; [lia | done].
Qed.

Lemma fanout_exactly_once subs base new s :
  NoDup subs → fanout code subs base new (Returned tt) → s ∈ subs →
  timesCalled s new = 1.
Proof.
  intros Hnd F Hs. pose proof (fo_returned _ _ _ _ _ F eq_refl) as Hall.
  apply timesCalled_NoDup; by rewrite Hall.
Qed.

Lemma notify_this w : this (notify code w).2 = this w.
Proof. destruct (notify_spec w) as (new & _ & _ & S). apply S. Qed.

Lemma openModal_spec id w :
  let r := openModal code id w in
  this r.2 =
    mkService (<[id := length (heap w)]> (modals (this w)))
      (subscribers (this w))
      (filter (λ modalId, modalId ≠ id) (openOrder (this w)) ++ [id]) ∧
  (∃ m, heap r.2 !! length (heap w) = Some m ∧ ModalState.id m = id) ∧
  (allRespectful code → heap w ++ [ModalState.mk id true] `prefix_of` heap r.2) ∧
  ∃ new, calls r.2 = calls w ++ new ∧
         fanout code (subscribers (this w)) (calls w) new r.1.
Proof.
  simpl. rewrite openModal_unfold.
  destruct (notify_spec
    (mkWorld (heap w ++ [ModalState.mk id true])
       (mkService (<[id := length (heap w)]> (modals (this w)))
          (subscribers (this w))
          (filter (λ modalId, modalId ≠ id) (openOrder (this w)) ++ [id]))
       (calls w))) as (new & C & F & [T I L P]).
  simpl in *. split; [done |]. split; [| split; [done | eauto]].
  destruct (I (length (heap w)) (ModalState.mk id true)) as (m & Hm & Hid).
  { by rewrite lookup_app_r, Nat.sub_diag. }
  eauto.
Qed.

(** [closeModal] either finds no entry and does nothing, or replaces the
    entry by a closed copy and notifies. *)
Lemma closeModal_spec id w :
  wf w →
  let r := closeModal code id w in
  match lookupModal w id with
  | None => r = (Returned tt, w)
  | Some m =>
      this r.2 =
        mkService (<[id := length (heap w)]> (modals (this w)))
          (subscribers (this w)) (openOrder (this w)) ∧
      (∃ m', heap r.2 !! length (heap w) = Some m' ∧ ModalState.id m' = id) ∧
      (allRespectful code → heap w ++ [ModalState.mk id false] `prefix_of` heap r.2) ∧
      ∃ new, calls r.2 = calls w ++ new ∧
             fanout code (subscribers (this w)) (calls w) new r.1
  end.
Proof.
  intros Hwf. simpl. unfold lookupModal.
  destruct (modals (this w) !! id) as [cur |] eqn:Hid; simpl;
    [| by apply closeModal_absent].
  destruct (wf_refs w Hwf id cur Hid) as (m & Hcur & Hm). rewrite Hcur.
  rewrite (closeModal_present id w cur m) by done. rewrite Hm.
  destruct (notify_spec
    (mkWorld (heap w ++ [ModalState.mk id false])
       (mkService (<[id := length (heap w)]> (modals (this w)))
          (subscribers (this w)) (openOrder (this w)))
       (calls w))) as (new & C & F & [T I L P]).
  simpl in *. split; [done |]. split; [| split; [done | eauto]].
  destruct (I (length (heap w)) (ModalState.mk id false)) as (m' & Hm' & Hid').
  { by rewrite lookup_app_r, Nat.sub_diag. }
  eauto.
Qed.

Lemma closeModal_cases id w :
  closeModal code id w = (Returned tt, w) ∨
  ∃ mid, closeModal code id w = notify code mid ∧
         calls mid = calls w ∧
         is_Some (modals (this w) !! id) ∧
         this mid =
           mkService (<[id := length (heap w)]> (modals (this w)))
             (subscribers (this w)) (openOrder (this w)).
Proof.
  destruct (modals (this w) !! id) as [cur |] eqn:Hid;
    [| left; by apply closeModal_absent].
  destruct (heap w !! cur) as [m |] eqn:Hcur.
  - right. eexists. split; [by apply (closeModal_present id w cur m) |].
    simpl. eauto.
  - left. unfold closeModal, bind, gets. simpl. rewrite Hid. simpl.
    by rewrite Hcur.
Qed.

Lemma subscribe_spec s w :
  let r := subscribe code s w in
  this r.2 =
    mkService (modals (this w)) (setAdd s (subscribers (this w)))
      (openOrder (this w)) ∧
  calls r.2 = calls w ++ [mkInvocation s (contents (heap w) (modals (this w)))] ∧
  r.1 = (if throws (code s (calls w)) then Thrown s
         else Returned (UnsubscribeOf s)) ∧
  (respectful (code s (calls w)) → heap w `prefix_of` heap r.2).
Proof.
  simpl. rewrite subscribe_unfold.
  destruct (invoke_spec s (modals (this w)) (setSubscribers (setAdd s) w))
    as (C & [T I L P] & O).
  simpl in *.
  destruct (invoke code s _ _) as [[m' | e] w'] eqn:E; simpl in *.
  - destruct (throws (code s (calls w))); [done |]. by rewrite T.
  - destruct (throws (code s (calls w))); [| by destruct O].
    injection O as ->. by rewrite T.
Qed.

(** *** One request at a time *)

Lemma closeModal_this id w :
  subscribers (this (closeModal code id w).2) = subscribers (this w) ∧
  openOrder (this (closeModal code id w).2) = openOrder (this w) ∧
  ∀ k, modals (this w) !! k = None →
       modals (this (closeModal code id w).2) !! k = None.
Proof.
  destruct (closeModal_cases id w) as [H | (mid & H & _ & Hsome & T)];
    rewrite H; [done |].
  rewrite notify_this, T. simpl. split; [done |]. split; [done |].
  intros k Hk. rewrite lookup_insert_ne; [done |].
  intros <-. rewrite Hk in Hsome. by destruct Hsome.
Qed.


Lemma onKeydown_cases event w :
  onKeydown code event w = (Returned tt, w) ∨
  ∃ modalId, onKeydown code event w = closeModal code modalId w.
Proof.
  destruct (decide (key event = "Escape")) as [Hk | Hk].
  - rewrite onKeydown_escape by done.
    destruct (last _) as [modalId |]; [| by left].
    destruct (String.eqb modalId ""); [by left | right; eauto].
  - left. by apply onKeydown_other.
Qed.

Lemma serve_subscribers r w :
  subscribers (this (serve code r w).2) =
  match r with
  | Subscribe s => setAdd s (subscribers (this w))
  | CallUnsubscribe (UnsubscribeOf s) => setDelete s (subscribers (this w))
  | _ => subscribers (this w)
  end.
Proof.
  destruct r as [id | id | event | s | [s]]; simpl.
  - destruct (openModal_spec id w) as (T & _). by rewrite T.
  - apply closeModal_this.
  - destruct (onKeydown_cases event w) as [H | [modalId H]]; rewrite H;
      [done | apply closeModal_this].
  - unfold bind. destruct (subscribe_spec s w) as (T & _).
    destruct (subscribe code s w) as [[h | e] w']; simpl in *; by rewrite T.
  - done.
Qed.

Lemma serve_modals_absent r w id :
  modals (this w) !! id = None → r ≠ OpenModal id →
  modals (this (serve code r w).2) !! id = None.
Proof.
  intros Hid Hr. destruct r as [id' | id' | event | s | [s]]; simpl.
  - destruct (openModal_spec id' w) as (T & _). rewrite T. simpl.
    rewrite lookup_insert_ne; [done | congruence].
  - by apply closeModal_this.
  - destruct (onKeydown_cases event w) as [H | [modalId H]]; rewrite H;
      [done | by apply closeModal_this].
  - unfold bind. destruct (subscribe_spec s w) as (T & _).
    destruct (subscribe code s w) as [[h | e] w']; simpl in *; by rewrite T.
  - done.
Qed.


(** The invariant holds at every point a caller can observe. *)
Lemma wf_notify w : wf w → wf (notify code w).2.
Proof.
  intros H. destruct (notify_spec w) as (new & _ & _ & S).
  by eapply wf_subscriberStep.
Qed.

Lemma wf_openModal id w : wf w → wf (openModal code id w).2.
Proof.
  intros H. rewrite openModal_unfold. apply wf_notify. by apply wf_store_fresh.
Qed.

Lemma wf_closeModal id w : wf w → wf (closeModal code id w).2.
Proof.
  intros H. destruct (modals (this w) !! id) as [cur |] eqn:Hid.
  - destruct (wf_refs w H id cur Hid) as (m & Hcur & Hm).
    rewrite (closeModal_present id w cur m) by done.
    apply wf_notify. by apply wf_store_fresh.
  - by rewrite closeModal_absent.
Qed.

Lemma wf_setSubscribers f w :
  (∀ l, NoDup l → NoDup (f l)) → wf w → wf (setSubscribers f w).
Proof. intros Hf [Hs Hr]. split; simpl; auto. Qed.

Lemma wf_subscribe s w : wf w → wf (subscribe code s w).2.
Proof.
  intros H. rewrite subscribe_unfold.
  pose proof (wf_setSubscribers (setAdd s) w (setAdd_NoDup s) H) as H1.
  destruct (invoke_spec s (modals (this w)) (setSubscribers (setAdd s) w))
    as (_ & S & _).
  pose proof (wf_subscriberStep _ _ _ H1 S) as H2.
  by destruct (invoke code s _ _) as [[? | ?] ?].
Qed.

Lemma wf_unsubscribe h w : wf w → wf (unsubscribe h w).2.
Proof.
  intros H. destruct h as [s]. simpl.
  apply wf_setSubscribers; [apply setDelete_NoDup | done].
Qed.

Lemma wf_onKeydown event w : wf w → wf (onKeydown code event w).2.
Proof.
  intros H. destruct (decide (key event = "Escape")) as [Hk | Hk].
  - rewrite onKeydown_escape by done.
    destruct (last _) as [modalId |]; [| done].
    destruct (String.eqb modalId ""); [done | by apply wf_closeModal].
  - by rewrite onKeydown_other.
Qed.

Lemma wf_serve r w : wf w → wf (serve code r w).2.
Proof.
  intros H. destruct r as [id | id | event | s | h]; simpl.
  - by apply wf_openModal.
  - by apply wf_closeModal.
  - by apply wf_onKeydown.
  - unfold bind. pose proof (wf_subscribe s w H) as H'.
    by destruct (subscribe code s w) as [[? | ?] ?].
  - by apply wf_unsubscribe.
Qed.

Lemma run_snoc rs r w :
  run code (rs ++ [r]) w = (serve code r (run code rs w)).2.
Proof. unfold run. by rewrite fold_left_app. Qed.

Lemma run_cons r rs w :
  run code (r :: rs) w = run code rs (serve code r w).2.
Proof. reflexivity. Qed.

Lemma wf_run rs w : wf w → wf (run code rs w).
Proof.
  revert w. induction rs as [| r rs IH]; intros w H; [done |].
  rewrite run_cons. by apply IH, wf_serve.
Qed.

Lemma contents_lookup h m k : contents h m !! k = m !! k ≫= (λ l, h !! l).
Proof. unfold contents. apply lookup_omap. Qed.

Lemma fanout_failFast (r : Completion unit * World) subs w new :
  calls r.2 = calls w ++ new → fanout code subs (calls w) new r.1 →
  failFast code w r.
Proof.
  intros C F. unfold failFast. rewrite (newCalls_app _ _ _ C).
  split; [apply F | apply F].
Qed.

(** *** With nobody subscribed *)

Lemma notify_alone w :
  subscribers (this w) = [] → notify code w = (Returned tt, w).
Proof. intros H. rewrite notify_unfold, H. reflexivity. Qed.

Lemma openModal_alone id w :
  subscribers (this w) = [] →
  subscribers (this (openModal code id w).2) = [] ∧
  isOpenIn (openModal code id w).2 id = true.
Proof.
  intros H. rewrite openModal_unfold, notify_alone by done. simpl.
  split; [done |]. unfold isOpenIn, lookupModal. simpl.
  rewrite lookup_insert_eq. simpl. by rewrite lookup_app_r, Nat.sub_diag.
Qed.

Lemma closeModal_alone id w :
  wf w → subscribers (this w) = [] →
  subscribers (this (closeModal code id w).2) = [] ∧
  isOpenIn (closeModal code id w).2 id = false.
Proof.
  intros Hwf H. destruct (modals (this w) !! id) as [cur |] eqn:Hid.
  - destruct (wf_refs w Hwf id cur Hid) as (m & Hcur & Hm).
    rewrite (closeModal_present id w cur m), notify_alone by done. simpl.
    split; [done |]. unfold isOpenIn, lookupModal. simpl.
    rewrite lookup_insert_eq. simpl. by rewrite lookup_app_r, Nat.sub_diag.
  - rewrite closeModal_absent by done. simpl. split; [done |].
    unfold isOpenIn, lookupModal. by rewrite Hid.
Qed.

Lemma run_alone (id : string) rs w :
  Forall (λ r, r = OpenModal id ∨ r = CloseModal id) rs →
  subscribers (this w) = [] → subscribers (this (run code rs w)) = [].
Proof.
  intros Hrs. revert w. induction Hrs as [| r rs Hr _ IH]; intros w Hw; [done |].
  rewrite run_cons. apply IH. rewrite serve_subscribers.
  by destruct Hr as [-> | ->].
Qed.

Lemma run_modals_absent (id : string) rs w :
  Forall (λ r, r ≠ OpenModal id) rs →
  modals (this w) !! id = None → modals (this (run code rs w)) !! id = None.
Proof.
  intros Hrs. revert w. induction Hrs as [| r rs Hr _ IH]; intros w Hw; [done |].
  rewrite run_cons. by apply IH, serve_modals_absent.
Qed.

(** *** Who gets called *)






(** *** The dismissal signal *)

Lemma closeModal_closes id w m :
  wf w → allRespectful code → lookupModal w id = Some m →
  lookupModal (closeModal code id w).2 id = Some (ModalState.mk id false) ∧
  ∀ k, k ≠ id → lookupModal (closeModal code id w).2 k = lookupModal w k.
Proof.
  intros Hwf Hr Hm. pose proof (closeModal_spec id w Hwf) as H. simpl in H.
  rewrite Hm in H. destruct H as (T & _ & P & _). split.
  - eapply lookupModal_fresh; [by apply P |].
    rewrite T. simpl. by rewrite lookup_insert_eq.
  - intros k Hk. apply lookupModal_frame; [done | |].
    + etrans; [| by apply P]. by apply prefix_app_r.
    + rewrite T. simpl. by rewrite lookup_insert_ne.
Qed.

Lemma last_open_is_open w id :
  last (filter (λ k, isOpenIn w k = true) (openOrder (this w))) = Some id →
  isOpenIn w id = true.
Proof.
  intros H. apply last_Some_elem_of in H.
  by apply list_elem_of_filter in H as [? _].
Qed.

(** When the most recently opened panel that is still open has a
    non-empty identifier, the signal closes that panel and no other. *)
Lemma onKeydown_closes_top w id :
  wf w → allRespectful code →
  last (filter (λ k, isOpenIn w k = true) (openOrder (this w))) = Some id →
  id ≠ "" →
  onKeydown code escape w = closeModal code id w ∧
  isOpenIn (onKeydown code escape w).2 id = false ∧
  ∀ k, k ≠ id → isOpenIn (onKeydown code escape w).2 k = isOpenIn w k.
Proof.
  intros Hwf Hr Hlast Hid.
  rewrite onKeydown_escape by done. rewrite Hlast.
  destruct (String.eqb_spec id ""); [done |]. split; [done |].
  pose proof (last_open_is_open w id Hlast) as Hopen.
  unfold isOpenIn in Hopen.
  destruct (lookupModal w id) as [m |] eqn:Hm; [| done].
  destruct (closeModal_closes id w m Hwf Hr Hm) as [Hclosed Hothers].
  split; [unfold isOpenIn; by rewrite Hclosed |].
  intros k Hk. unfold isOpenIn. by rewrite Hothers.
Qed.

(** With nothing open the signal does nothing. *)
Lemma onKeydown_nothing_open w :
  last (filter (λ k, isOpenIn w k = true) (openOrder (this w))) = None →
  onKeydown code escape w = (Returned tt, w).
Proof. intros H. rewrite onKeydown_escape by done. by rewrite H. Qed.

(** With the empty identifier on top the signal does nothing either. *)
Lemma onKeydown_empty_top w :
  last (filter (λ k, isOpenIn w k = true) (openOrder (this w))) = Some "" →
  onKeydown code escape w = (Returned tt, w).
Proof. intros H. rewrite onKeydown_escape by done. by rewrite H. Qed.

(** *** Subscribers that do not assign through the map they are given *)

Lemma subscribe_respectful s w k :
  wf w → respectful (code s (calls w)) →
  lookupModal (subscribe code s w).2 k = lookupModal w k.
Proof.
  intros Hwf Hr. destruct (subscribe_spec s w) as (T & _ & _ & P).
  apply lookupModal_frame; [done | by apply P | by rewrite T].
Qed.

Lemma notify_respectful w k :
  wf w → allRespectful code →
  lookupModal (notify code w).2 k = lookupModal w k.
Proof.
  intros Hwf Hr. destruct (notify_spec w) as (_ & _ & _ & [T _ _ P]).
  apply lookupModal_frame; [done | by apply P | by rewrite T].
Qed.

End SubscriberCode.

(** * The claims *)

(** C6: closing an identifier that has no entry in the store does nothing:
    the call returns with the whole state as it was (no entry is created,
    the store and [openOrder] are untouched) and no subscriber is called. *)
Theorem closeModal_unknown_noop code (id : string) (w : World) :
  modals (this w) !! id = None →
  closeModal code id w = (Returned tt, w) ∧
  modals (this (closeModal code id w).2) !! id = None ∧
  openOrder (this (closeModal code id w).2) = openOrder (this w) ∧
  newCalls w (closeModal code id w).2 = [].
Proof.
  intros H. rewrite closeModal_absent by done. simpl.
  repeat split; [done |]. apply newCalls_app. by rewrite app_nil_r.
Qed.

Lemma closeModal_unknown_noop_witness :
  modals (this (run quietCode sampleRequests initial)) !! "ghost" = None ∧
  closeModal quietCode "ghost" (run quietCode sampleRequests initial)
  = (Returned tt, run quietCode sampleRequests initial).
Proof.
  split; [vm_compute; reflexivity |].
  apply (closeModal_unknown_noop quietCode "ghost"). vm_compute; reflexivity.
Defined.

(** C7: [subscribe(f)] registers [f] (leaving the other registrations, the
    store and [openOrder] alone) and calls [f] exactly once, with a map that
    shows the whole store as it is at that moment, the empty store included.
    The call is made before [subscribe] completes: the state in which the
    handle is returned already contains it, and the handle is only returned
    when the call returned. *)
Theorem subscribe_calls_once code (f : ModalSubscriber) (w : World) :
  subscribers (this (subscribe code f w).2) = setAdd f (subscribers (this w)) ∧
  f ∈ subscribers (this (subscribe code f w).2) ∧
  (∀ g, g ∈ subscribers (this w) → g ∈ subscribers (this (subscribe code f w).2)) ∧
  modals (this (subscribe code f w).2) = modals (this w) ∧
  openOrder (this (subscribe code f w).2) = openOrder (this w) ∧
  newCalls w (subscribe code f w).2
    = [mkInvocation f (contents (heap w) (modals (this w)))] ∧
  timesCalled f (newCalls w (subscribe code f w).2) = 1 ∧
  (subscribe code f w).1
    = (if throws (code f (calls w)) then Thrown f else Returned (UnsubscribeOf f)).
Proof.
  destruct (subscribe_spec code f w) as (T & C & O & _).
  pose proof (newCalls_app _ _ _ C) as N. rewrite N, T. simpl.
  repeat split; try done.
  - apply setAdd_elem. by left.
  - intros g Hg. apply setAdd_elem. by right.
  - unfold timesCalled. by rewrite filter_cons_True.
Qed.

(** C8: the mediator neither catches nor isolates.  In [subscribe],
    [openModal] and [closeModal] alike, a subscriber call that throws is the
    last call the operation makes (the subscribers after it are not called,
    and it is not called again) and the operation completes with that very
    exception; conversely an operation only throws what a subscriber
    threw. *)
Theorem subscriber_exception_propagates code (w : World) :
  (∀ f, failFast code w (subscribe code f w)) ∧
  (∀ id, failFast code w (openModal code id w)) ∧
  (∀ id, failFast code w (closeModal code id w)).
Proof.
  split; [| split].
  - intros f. destruct (subscribe_spec code f w) as (_ & C & O & _).
    unfold failFast. rewrite (newCalls_app _ _ _ C), O. split.
    + intros pre inv post Hnew Ht. destruct pre as [| c pre]; simpl in Hnew.
      * injection Hnew as <- <-. rewrite app_nil_r in Ht. simpl in *.
        by rewrite Ht.
      * injection Hnew as _ Hnil. by destruct pre.
    + intros s Hs. destruct (throws (code f (calls w))) eqn:Ht; [| done].
      injection Hs as <-. eexists [], _. rewrite app_nil_r. done.
  - intros id. destruct (openModal_spec code id w) as (_ & _ & _ & new & C & F).
    by eapply fanout_failFast.
  - intros id. destruct (closeModal_cases code id w) as [H | (mid & H & Hc & Hs)].
    + rewrite H. unfold failFast, newCalls. simpl. rewrite drop_all. split.
      * intros pre inv post Hnil. by destruct pre.
      * intros s [=].
    + rewrite H. destruct (notify_spec code mid) as (new & C & F & _).
      destruct Hs as [_ Hs]. rewrite Hc, Hs in *. by eapply fanout_failFast.
Qed.

Lemma subscriber_exception_propagates_witness :
  (openModal throwingCode "c"
     (run throwingCode [Subscribe 1; Subscribe 2; Subscribe 3] initial)).1
  = Thrown 2.
Proof.
  pose proof (subscriber_exception_propagates throwingCode
    (run throwingCode [Subscribe 1; Subscribe 2; Subscribe 3] initial))
    as (_ & Hopen & _).
  destruct (Hopen "c") as [Hfatal _].
  apply (Hfatal [mkInvocation 1 {["c" := ModalState.mk "c" true]}]
           (mkInvocation 2 {["c" := ModalState.mk "c" true]}) []);
    vm_compute; reflexivity.
Defined.

(** C5: [openModal(id)], whether or not [id] is already open, stores a
    fresh object under [id] that reads [{id, isOpen: true}], removes every
    earlier occurrence of [id] from [openOrder] and appends [id], so that
    [id] occurs exactly once, in last position, and runs one fan-out over
    the registered subscribers: none is called twice, and each is called
    exactly once when the fan-out is not cut short by an exception. *)
Theorem openModal_effect code (id : string) (w : World) :
  wf w →
  let r := openModal code id w in
  modals (this r.2) !! id = Some (length (heap w)) ∧
  (allRespectful code → lookupModal r.2 id = Some (ModalState.mk id true)) ∧
  openOrder (this r.2) = filter (λ x, x ≠ id) (openOrder (this w)) ++ [id] ∧
  last (openOrder (this r.2)) = Some id ∧
  length (filter (λ x, x = id) (openOrder (this r.2))) = 1 ∧
  subscribers (this r.2) = subscribers (this w) ∧
  fanout code (subscribers (this w)) (calls w) (newCalls w r.2) r.1 ∧
  (∀ s, timesCalled s (newCalls w r.2) ≤ 1) ∧
  (r.1 = Returned tt →
   ∀ s, s ∈ subscribers (this w) → timesCalled s (newCalls w r.2) = 1).
Proof.
  intros Hwf r. subst r.
  destruct (openModal_spec code id w) as (T & _ & P & new & C & F).
  rewrite (newCalls_app _ _ _ C). unfold lookupModal. rewrite T. simpl.
  rewrite lookup_insert_eq. simpl.
  split; [done |]. split; [| split; [done |]].
  { intros Hr. eapply prefix_lookup_Some; [| by apply P].
    by rewrite lookup_app_r, Nat.sub_diag. }
  split; [apply last_snoc |]. split.
  { by rewrite filter_app, occurrences_after_removal, filter_cons_True. }
  split; [done |]. split; [done |]. split.
  - intros s. eapply fanout_at_most_once; [apply Hwf | done].
  - intros Hret s Hs. rewrite Hret in F.
    eapply fanout_exactly_once; [apply Hwf | done | done].
Qed.

Lemma openModal_effect_witness :
  isOpenIn (run quietCode sampleRequests initial) "a" = true ∧
  lookupModal (openModal quietCode "a" (run quietCode sampleRequests initial)).2 "a"
    = Some (ModalState.mk "a" true) ∧
  openOrder (this (run quietCode sampleRequests initial)) = ["a"; "b"] ∧
  openOrder (this (openModal quietCode "a"
                     (run quietCode sampleRequests initial)).2) = ["b"; "a"] ∧
  timesCalled 3 (newCalls (run quietCode sampleRequests initial)
                   (openModal quietCode "a"
                      (run quietCode sampleRequests initial)).2) = 1.
Proof.
  destruct (openModal_effect quietCode "a" (run quietCode sampleRequests initial))
    as (_ & Hentry & Horder & _ & _ & _ & _ & _ & Hcalled).
  { apply wf_run, wf_initial. }
  split; [vm_compute; reflexivity |].
  split; [apply Hentry; intros s h; reflexivity |].
  split; [vm_compute; reflexivity |].
  split; [rewrite Horder; vm_compute; reflexivity |].
  apply Hcalled; [vm_compute; reflexivity |].
  vm_compute. apply list_elem_of_In. simpl. tauto.
Defined.

(** C2, the claim as stated, fails: with ["b"] recorded as closed and
    subscribers [1] and [3] registered, [closeModal("b")] calls both. *)
Lemma closeModal_closed_silent_counterexample :
  lookupModal (run quietCode sampleRequests initial) "b"
    = Some (ModalState.mk "b" false) ∧
  map callee (newCalls (run quietCode sampleRequests initial)
                (closeModal quietCode "b"
                   (run quietCode sampleRequests initial)).2) = [1; 3] ∧
  ¬ (newCalls (run quietCode sampleRequests initial)
       (closeModal quietCode "b" (run quietCode sampleRequests initial)).2 = []).
Proof.
  split; [vm_compute; reflexivity |]. split; [vm_compute; reflexivity |].
  vm_compute. discriminate.
Qed.

(** C2, amended: closing an identifier whose entry is already closed leaves
    every entry of the store reading as before (the entry is replaced by an
    equal object), and leaves [openOrder] and the subscriber set alone, but
    it does notify: it runs one fan-out over the registered subscribers, in
    which none is called twice and each is called exactly once when no call
    throws. *)
Theorem closeModal_closed_renotifies code (id : string) (w : World) (m : ModalState.t) :
  wf w → lookupModal w id = Some m → ModalState.isOpen m = false →
  let r := closeModal code id w in
  (allRespectful code → ∀ k, lookupModal r.2 k = lookupModal w k) ∧
  openOrder (this r.2) = openOrder (this w) ∧
  subscribers (this r.2) = subscribers (this w) ∧
  fanout code (subscribers (this w)) (calls w) (newCalls w r.2) r.1 ∧
  (∀ s, timesCalled s (newCalls w r.2) ≤ 1) ∧
  (r.1 = Returned tt →
   ∀ s, s ∈ subscribers (this w) → timesCalled s (newCalls w r.2) = 1).
Proof.
  intros Hwf Hm Hclosed r. subst r.
  pose proof (closeModal_spec code id w Hwf) as H. simpl in H. rewrite Hm in H.
  destruct H as (T & _ & P & new & C & F).
  rewrite (newCalls_app _ _ _ C), T. simpl.
  split; [| split; [done |]; split; [done |]; split; [done |]; split].
  - intros Hr k. destruct (decide (k = id)) as [-> | Hne].
    + rewrite Hm. pose proof (lookupModal_wf w id m Hwf Hm) as Hid.
      assert (m = ModalState.mk id false) as ->
        by (destruct m as [i o]; simpl in *; by subst).
      eapply lookupModal_fresh; [by apply P |].
      rewrite T. simpl. by rewrite lookup_insert_eq.
    + apply lookupModal_frame; [done | |].
      * etrans; [| by apply P]. by apply prefix_app_r.
      * rewrite T. simpl. by rewrite lookup_insert_ne.
  - intros s. eapply fanout_at_most_once; [apply Hwf | done].
  - intros Hret s Hs. rewrite Hret in F.
    eapply fanout_exactly_once; [apply Hwf | done | done].
Qed.

Lemma closeModal_closed_renotifies_witness :
  lookupModal (closeModal quietCode "b" (run quietCode sampleRequests initial)).2 "a"
    = lookupModal (run quietCode sampleRequests initial) "a" ∧
  timesCalled 1 (newCalls (run quietCode sampleRequests initial)
                   (closeModal quietCode "b"
                      (run quietCode sampleRequests initial)).2) = 1.
Proof.
  destruct (closeModal_closed_renotifies quietCode "b"
              (run quietCode sampleRequests initial) (ModalState.mk "b" false))
    as (Hsame & _ & _ & _ & _ & Hcalled).
  - apply wf_run, wf_initial.
  - vm_compute; reflexivity.
  - reflexivity.
  - split.
    + apply Hsame. intros s h. reflexivity.
    + apply Hcalled; [vm_compute; reflexivity |].
      vm_compute. apply list_elem_of_In. simpl. tauto.
Defined.

(** C4: after any sequence of [openModal(id)] and [closeModal(id)] calls on
    a new mediator, [isModalOpen(id)] answers [true] exactly when the
    sequence is not empty and ends with [openModal(id)]; after any requests
    at all among which [id] was never opened it answers [false]; and in
    every state it only reads: the state it returns in is the state it was
    called in. *)
Theorem isModalOpen_last_call code (id : string) :
  (∀ rs, Forall (λ r, r = OpenModal id ∨ r = CloseModal id) rs →
     ∃ b, isModalOpen id (run code rs initial) = (Returned b, run code rs initial) ∧
          (b = true ↔ last rs = Some (OpenModal id))) ∧
  (∀ rs, Forall (λ r, r ≠ OpenModal id) rs →
     isModalOpen id (run code rs initial) = (Returned false, run code rs initial)) ∧
  (∀ w, (isModalOpen id w).2 = w).
Proof.
  split; [| split]; [| | done].
  - intros rs Hrs. rewrite isModalOpen_spec. eexists. split; [reflexivity |].
    destruct rs as [| r rs _] using rev_ind; [done |].
    apply Forall_app in Hrs as [Hrs Hr]. apply Forall_cons in Hr as [Hr _].
    rewrite run_snoc, last_snoc.
    pose proof (run_alone code id rs initial Hrs eq_refl) as Halone.
    pose proof (wf_run code rs initial wf_initial) as Hwf.
    destruct Hr as [-> | ->]; simpl.
    + destruct (openModal_alone code id _ Halone) as [_ ->]. done.
    + destruct (closeModal_alone code id _ Hwf Halone) as [_ ->].
      split; [done | intros [=]].
  - intros rs Hrs. rewrite isModalOpen_spec. f_equal. f_equal.
    unfold isOpenIn, lookupModal.
    by rewrite (run_modals_absent code id rs initial Hrs).
Qed.

Lemma isModalOpen_last_call_witness :
  isModalOpen "m"
    (run quietCode [OpenModal "m"; CloseModal "m"; OpenModal "m"] initial)
  = (Returned true,
     run quietCode [OpenModal "m"; CloseModal "m"; OpenModal "m"] initial) ∧
  isModalOpen "m"
    (run quietCode [CloseModal "m"; OpenModal "n"; Subscribe 1; Keydown escape] initial)
  = (Returned false,
     run quietCode [CloseModal "m"; OpenModal "n"; Subscribe 1; Keydown escape] initial).
Proof.
  destruct (isModalOpen_last_call quietCode "m") as (Hlast & Hnever & _). split.
  - destruct (Hlast [OpenModal "m"; CloseModal "m"; OpenModal "m"])
      as (b & Hb & Hiff).
    + apply Forall_forall. intros r Hr. apply list_elem_of_In in Hr.
      simpl in Hr. intuition auto.
    + rewrite Hb. f_equal. f_equal. by apply Hiff.
  - apply Hnever. apply Forall_forall. intros r Hr. apply list_elem_of_In in Hr.
    simpl in Hr. intuition (subst; discriminate).
Defined.





(** C1, at the failing input: ["B"] and then [""] are opened, with one
    subscriber watching.  The empty identifier is the most recently opened
    panel and it is open, yet the dismissal signal closes nothing and
    notifies nobody, however often it is sent: [getLastOpenModal] returns
    [""], which the listener's truthiness test takes for "no modal". *)
Theorem escape_ignores_empty_identifier :
  getLastOpenModal (run quietCode [Subscribe 1; OpenModal "B"; OpenModal ""] initial)
  = (Returned (Some ""),
     run quietCode [Subscribe 1; OpenModal "B"; OpenModal ""] initial) ∧
  onKeydown quietCode escape
    (run quietCode [Subscribe 1; OpenModal "B"; OpenModal ""] initial)
  = (Returned tt, run quietCode [Subscribe 1; OpenModal "B"; OpenModal ""] initial) ∧
  isOpenIn (run quietCode [Subscribe 1; OpenModal "B"; OpenModal "";
                           Keydown escape; Keydown escape] initial) "" = true ∧
  isOpenIn (run quietCode [Subscribe 1; OpenModal "B"; OpenModal "";
                           Keydown escape; Keydown escape] initial) "B" = true.
Proof. repeat split; vm_compute; reflexivity. Qed.

(** The scenario of the specification on three non-empty identifiers: the
    signal closes ["C"], then ["B"], then ["A"], and the fourth signal calls
    no subscriber; and a re-opened ["A"] is the one a single signal closes. *)
Example escape_closes_in_reverse_order :
  map (isOpenIn (run quietCode
         [OpenModal "A"; OpenModal "B"; OpenModal "C"; Subscribe 1; Keydown escape]
         initial)) ["A"; "B"; "C"] = [true; true; false] ∧
  map (isOpenIn (run quietCode
         [OpenModal "A"; OpenModal "B"; OpenModal "C"; Subscribe 1; Keydown escape;
          Keydown escape] initial)) ["A"; "B"; "C"] = [true; false; false] ∧
  map (isOpenIn (run quietCode
         [OpenModal "A"; OpenModal "B"; OpenModal "C"; Subscribe 1; Keydown escape;
          Keydown escape; Keydown escape] initial)) ["A"; "B"; "C"]
    = [false; false; false] ∧
  onKeydown quietCode escape (run quietCode
         [OpenModal "A"; OpenModal "B"; OpenModal "C"; Subscribe 1; Keydown escape;
          Keydown escape; Keydown escape] initial)
    = (Returned tt, run quietCode
         [OpenModal "A"; OpenModal "B"; OpenModal "C"; Subscribe 1; Keydown escape;
          Keydown escape; Keydown escape] initial) ∧
  map (isOpenIn (run quietCode
         [OpenModal "A"; OpenModal "B"; OpenModal "C"; OpenModal "A"; Keydown escape]
         initial)) ["A"; "B"; "C"] = [false; true; true].
Proof. repeat split; vm_compute; reflexivity. Qed.

(** C3, at the failing input: ["a"] is open and is never closed.  Subscriber
    [1] assigns [isOpen = false] on the entry of the map it receives when it
    subscribes.  The entry is the mediator's own object: from then on
    [isModalOpen("a")] answers [false], and the map handed to the next
    subscriber shows ["a"] closed.  The same happens in a fan-out: with [1]
    already subscribed, ["a"] reads closed as soon as [openModal("a")]
    returns. *)
Theorem snapshot_shares_entries :
  isOpenIn (run meddlingCode [OpenModal "a"] initial) "a" = true ∧
  isOpenIn (run meddlingCode [OpenModal "a"; Subscribe 1] initial) "a" = false ∧
  isOpenIn (run meddlingCode [Subscribe 1; OpenModal "a"] initial) "a" = false ∧
  newCalls (run meddlingCode [OpenModal "a"; Subscribe 1] initial)
           (run meddlingCode [OpenModal "a"; Subscribe 1; Subscribe 3] initial)
  = [mkInvocation 3 {["a" := ModalState.mk "a" false]}].
Proof. repeat split; vm_compute; reflexivity. Qed.

(** * Further properties *)

Lemma last_filter_None {A} (P : A → Prop) `{∀ x, Decision (P x)} (l : list A) :
  last (filter P l) = None ↔ ∀ x, x ∈ l → ¬ P x.
Proof.
  rewrite last_None. split.
  - intros Hnil x Hx HP. by eapply filter_nil_not_elem_of.
  - intros Hl. induction l as [| x l IH]; [done |].
    rewrite filter_cons_False by (apply Hl; left).
    apply IH. intros y Hy. apply Hl. by right.
Qed.

Lemma last_filter_Some {A} (P : A → Prop) `{∀ x, Decision (P x)} (l : list A) x :
  last (filter P l) = Some x →
  P x ∧ ∃ pre post, l = pre ++ x :: post ∧ ∀ y, y ∈ post → ¬ P y.
Proof.
  induction l as [| y l IH] using rev_ind; [done |].
  rewrite filter_app, filter_cons, filter_nil. case_decide as Hy.
  - rewrite last_snoc. intros [= ->]. split; [done |].
    exists l, []. split; [done |]. intros z Hz. by apply elem_of_nil in Hz.
  - rewrite app_nil_r. intros Hlast.
    destruct (IH Hlast) as (Hx & pre & post & -> & Hpost). split; [done |].
    exists pre, (post ++ [y]). split; [by rewrite <- app_assoc |].
    intros z [Hz | ->%list_elem_of_singleton]%elem_of_app; [by apply Hpost | done].
Qed.

Section MoreOfTheMediator.

Variable code : ModalSubscriber → list Invocation → Callback.

(** What one request does to the store and to [openOrder]. *)
Lemma serve_store r w :
  (∃ id, r = OpenModal id ∧
         modals (this (serve code r w).2) = <[id := length (heap w)]> (modals (this w)) ∧
         openOrder (this (serve code r w).2)
           = filter (λ x, x ≠ id) (openOrder (this w)) ++ [id]) ∨
  (openOrder (this (serve code r w).2) = openOrder (this w) ∧
   (modals (this (serve code r w).2) = modals (this w) ∨
    ∃ id, is_Some (modals (this w) !! id) ∧
          modals (this (serve code r w).2) = <[id := length (heap w)]> (modals (this w)))).
Proof.
  assert (∀ id,
    openOrder (this (closeModal code id w).2) = openOrder (this w) ∧
    (modals (this (closeModal code id w).2) = modals (this w) ∨
     ∃ k, is_Some (modals (this w) !! k) ∧
          modals (this (closeModal code id w).2)
            = <[k := length (heap w)]> (modals (this w)))) as Hclose.
  { intros id. destruct (closeModal_cases code id w) as [H | (mid & H & _ & Hsome & T)];
      rewrite H; [split; [done | by left] |].
    rewrite notify_this, T. simpl. split; [done |]. right. by exists id. }
  destruct r as [id | id | event | s | [s]]; simpl.
  - left. exists id. destruct (openModal_spec code id w) as (T & _).
    rewrite T. done.
  - right. apply Hclose.
  - right. destruct (onKeydown_cases code event w) as [H | [modalId H]]; rewrite H;
      [split; [done | by left] | apply Hclose].
  - right. unfold bind. destruct (subscribe_spec code s w) as (T & _).
    destruct (subscribe code s w) as [[h | e] w']; simpl in *; rewrite T;
      (split; [done | by left]).
  - right. split; [done | by left].
Qed.

(** [openOrder] lists the keys of the store, each once. *)
Lemma tracked_serve r w :
  NoDup (openOrder (this w)) →
  (∀ k, k ∈ openOrder (this w) ↔ is_Some (modals (this w) !! k)) →
  NoDup (openOrder (this (serve code r w).2)) ∧
  (∀ k, k ∈ openOrder (this (serve code r w).2)
        ↔ is_Some (modals (this (serve code r w).2) !! k)).
Proof.
  intros Hnd Hkeys.
  destruct (serve_store r w) as [(id & _ & -> & ->) | [-> [-> | (id & Hid & ->)]]].
  - split.
    + apply NoDup_app. split; [by apply NoDup_filter |].
      split; [| apply NoDup_singleton].
      intros x [Hx _]%list_elem_of_filter ->%list_elem_of_singleton. done.
    + intros k. rewrite elem_of_app, list_elem_of_filter, list_elem_of_singleton.
      rewrite lookup_insert_is_Some, Hkeys.
      destruct (decide (id = k)) as [-> | Hne]; intuition congruence.
  - done.
  - split; [done |]. intros k. rewrite lookup_insert_is_Some, Hkeys.
    destruct (decide (id = k)) as [-> | Hne]; intuition congruence.
Qed.

Lemma tracked_run rs w :
  NoDup (openOrder (this w)) →
  (∀ k, k ∈ openOrder (this w) ↔ is_Some (modals (this w) !! k)) →
  NoDup (openOrder (this (run code rs w))) ∧
  (∀ k, k ∈ openOrder (this (run code rs w))
        ↔ is_Some (modals (this (run code rs w)) !! k)).
Proof.
  revert w. induction rs as [| r rs IH]; intros w Hnd Hkeys; [done |].
  rewrite run_cons. destruct (tracked_serve r w Hnd Hkeys) as [Hnd' Hkeys'].
  by apply IH.
Qed.

Lemma tracked_initial :
  NoDup (openOrder (this initial)) ∧
  (∀ k, k ∈ openOrder (this initial) ↔ is_Some (modals (this initial) !! k)).
Proof.
  split; [apply NoDup_nil_2 |]. intros k. simpl. rewrite lookup_empty.
  split; [by intros ?%elem_of_nil | by intros [? ?]].
Qed.

End MoreOfTheMediator.

(** X1: in every state the mediator can reach, whatever the subscribers do,
    [openOrder] lists exactly the identifiers that have an entry in the
    store, each of them once; so it is as long as the store is large. *)
Theorem openOrder_lists_store_keys code (rs : list Request) :
  NoDup (openOrder (this (run code rs initial))) ∧
  (∀ k, k ∈ openOrder (this (run code rs initial))
        ↔ is_Some (modals (this (run code rs initial)) !! k)) ∧
  length (openOrder (this (run code rs initial)))
    = size (modals (this (run code rs initial))).
Proof.
  destruct tracked_initial as [Hnd0 Hkeys0].
  destruct (tracked_run code rs initial Hnd0 Hkeys0) as [Hnd Hkeys].
  split; [done |]. split; [done |].
  rewrite <- size_dom, <- (size_list_to_set (C := gset string)) by done.
  f_equal. apply set_eq. intros k.
  rewrite elem_of_list_to_set, elem_of_dom. apply Hkeys.
Qed.

Lemma filter_ne_absent {A} `{EqDecision A} (x : A) (l : list A) :
  x ∉ l → filter (λ y, y ≠ x) l = l.
Proof.
  induction l as [| y l IH]; [done |].
  intros [Hy Hl]%not_elem_of_cons. rewrite filter_cons_True by done.
  by rewrite IH.
Qed.

Lemma take_all_but_last {A} (l : list A) (x : A) :
  take (length (l ++ [x]) - 1) (l ++ [x]) = l.
Proof.
  rewrite length_app. simpl.
  replace (length l + 1 - 1) with (length l) by lia.
  by rewrite take_app_length.
Qed.

Section Dismissal.

Variable code : ModalSubscriber → list Invocation → Callback.

Lemma serve_modals_present r w id :
  is_Some (modals (this w) !! id) →
  is_Some (modals (this (serve code r w).2) !! id).
Proof.
  intros Hid.
  destruct (serve_store code r w) as [(k & _ & -> & _) | [_ [-> | (k & _ & ->)]]];
    [| done |]; rewrite lookup_insert_is_Some;
    (destruct (decide (k = id)); [by left | by right]).
Qed.

Lemma run_modals_present rs w id :
  is_Some (modals (this w) !! id) →
  is_Some (modals (this (run code rs w)) !! id).
Proof.
  revert w. induction rs as [| r rs IH]; intros w Hid; [done |].
  rewrite run_cons. by apply IH, serve_modals_present.
Qed.

Lemma lookupModal_is_Some w id :
  wf w → is_Some (lookupModal w id) ↔ is_Some (modals (this w) !! id).
Proof.
  intros Hwf. unfold lookupModal.
  destruct (modals (this w) !! id) as [l |] eqn:Hl; simpl.
  - destruct (wf_refs w Hwf id l Hl) as (m & -> & _). split; eauto.
  - split; by intros [? ?].
Qed.

Lemma onKeydown_openOrder event w :
  openOrder (this (onKeydown code event w).2) = openOrder (this w).
Proof.
  destruct (onKeydown_cases code event w) as [H | [modalId H]]; rewrite H;
    [done | apply closeModal_this].
Qed.

(** One signal takes the last element off the list of open panels, unless
    that element is the empty identifier. *)
Lemma onKeydown_pops w :
  wf w → NoDup (openOrder (this w)) → allRespectful code →
  last (openPanels w) ≠ Some "" →
  openPanels (onKeydown code escape w).2
  = take (length (openPanels w) - 1) (openPanels w).
Proof.
  intros Hwf Hnd Hr Htop. destruct (last (openPanels w)) as [id |] eqn:Hlast.
  - assert (id ≠ "") as Hid by congruence.
    destruct (onKeydown_closes_top code w id Hwf Hr Hlast Hid) as (_ & Hclosed & Hothers).
    apply last_Some in Hlast as [l' Hl'].
    assert (NoDup (l' ++ [id])) as Hnd'.
    { rewrite <- Hl'. by apply NoDup_filter. }
    apply NoDup_app in Hnd' as (_ & Hnotin & _).
    rewrite Hl', take_all_but_last. unfold openPanels in *.
    rewrite onKeydown_openOrder.
    rewrite (list_filter_iff _ (λ k, k ≠ id ∧ isOpenIn w k = true)).
    + rewrite <- list_filter_filter, Hl', filter_app.
      rewrite filter_cons_False by (intros H; by apply H).
      rewrite filter_nil, app_nil_r. apply filter_ne_absent.
      intros Hin. apply (Hnotin id Hin). by left.
    + intros k. destruct (decide (k = id)) as [-> | Hne].
      * rewrite Hclosed. split; [done | by intros [? _]].
      * rewrite Hothers by done. tauto.
  - rewrite onKeydown_nothing_open by done.
    apply last_None in Hlast. by rewrite Hlast.
Qed.

End Dismissal.



(** X3: an entry of the store is never removed: whatever requests follow
    and whatever the subscribers do, an identifier that has an entry keeps
    one. *)
Theorem entries_are_never_removed code (rs : list Request) (w : World) (id : string) :
  wf w → is_Some (lookupModal w id) →
  is_Some (lookupModal (run code rs w) id).
Proof.
  intros Hwf Hid. apply lookupModal_is_Some; [by apply wf_run |].
  apply run_modals_present. by apply lookupModal_is_Some.
Qed.

Lemma entries_are_never_removed_witness :
  is_Some (lookupModal
    (run meddlingCode [CloseModal "b"; Keydown escape; OpenModal "c"; CloseModal "c"]
       (run meddlingCode sampleRequests initial)) "b").
Proof.
  apply entries_are_never_removed.
  - apply wf_run, wf_initial.
  - vm_compute. eauto.
Defined.

(** X4: in every reachable state [getLastOpenModal] only reads; it returns
    [null] exactly when no panel at all is open, and an identifier it
    returns is open and is followed in [openOrder] by closed panels
    only. *)
Theorem getLastOpenModal_finds_top code (rs : list Request) :
  (getLastOpenModal (run code rs initial)).2 = run code rs initial ∧
  ((getLastOpenModal (run code rs initial)).1 = Returned None
   ↔ ∀ id, isOpenIn (run code rs initial) id = false) ∧
  (∀ id, (getLastOpenModal (run code rs initial)).1 = Returned (Some id) →
     isOpenIn (run code rs initial) id = true ∧
     ∃ pre post, openOrder (this (run code rs initial)) = pre ++ id :: post ∧
                 ∀ k, k ∈ post → isOpenIn (run code rs initial) k = false).
Proof.
  rewrite getLastOpenModal_spec. simpl. split; [done |].
  destruct tracked_initial as [Hnd0 Hkeys0].
  destruct (tracked_run code rs initial Hnd0 Hkeys0) as [_ Hkeys].
  set (w := run code rs initial) in *. split.
  - split.
    + intros [= Hnone]. intros id.
      destruct (isOpenIn w id) eqn:Hopen; [| done]. exfalso.
      apply (proj1 (last_filter_None _ _) Hnone id); [| done].
      apply Hkeys. unfold isOpenIn, lookupModal in Hopen.
      destruct (modals (this w) !! id); [eauto | done].
    + intros Hclosed. f_equal. apply last_filter_None.
      intros k _. rewrite Hclosed. done.
  - intros id [= Hsome].
    destruct (last_filter_Some _ _ _ Hsome) as (Hopen & pre & post & Horder & Hpost).
    split; [done |]. exists pre, post. split; [done |].
    intros k Hk. specialize (Hpost k Hk). by destruct (isOpenIn w k).
Qed.

Lemma getLastOpenModal_finds_top_witness :
  (getLastOpenModal (run quietCode sampleRequests initial)).1 = Returned (Some "a") ∧
  isOpenIn (run quietCode sampleRequests initial) "a" = true.
Proof.
  assert ((getLastOpenModal (run quietCode sampleRequests initial)).1
          = Returned (Some "a")) as H by (vm_compute; reflexivity).
  split; [done |].
  by apply (getLastOpenModal_finds_top quietCode sampleRequests).
Defined.

(** X5: the dismissal signal works through the open panels like a stack.
    When the empty string is not among the identifiers in use and the
    subscribers do not assign through their snapshots, [n] signals in a row
    take the last [n] elements off the list of open panels (as many as
    there are), leaving the others open. *)
Theorem escape_pops_open_panels code (n : nat) (w : World) :
  wf w → NoDup (openOrder (this w)) → allRespectful code →
  "" ∉ openOrder (this w) →
  openPanels (run code (replicate n (Keydown escape)) w)
  = take (length (openPanels w) - n) (openPanels w).
Proof.
  revert w. induction n as [| n IH]; intros w Hwf Hnd Hr Hempty.
  - simpl. rewrite Nat.sub_0_r. by rewrite firstn_all.
  - simpl replicate. rewrite run_cons. simpl serve.
    rewrite IH.
    + rewrite onKeydown_pops; [| done | done | done |].
      * rewrite length_take, take_take. f_equal. lia.
      * intros Hlast. apply Hempty. apply last_Some_elem_of in Hlast.
        by apply list_elem_of_filter in Hlast as [_ ?].
    + by apply wf_onKeydown.
    + by rewrite onKeydown_openOrder.
    + done.
    + by rewrite onKeydown_openOrder.
Qed.

Lemma escape_pops_open_panels_witness :
  openPanels (run quietCode [OpenModal "A"; OpenModal "B"; OpenModal "C";
                             CloseModal "B"; OpenModal "D"] initial)
    = ["A"; "C"; "D"] ∧
  openPanels (run quietCode (replicate 2 (Keydown escape))
                (run quietCode [OpenModal "A"; OpenModal "B"; OpenModal "C";
                                CloseModal "B"; OpenModal "D"] initial))
    = ["A"].
Proof.
  split; [vm_compute; reflexivity |].
  rewrite escape_pops_open_panels.
  - vm_compute; reflexivity.
  - apply wf_run, wf_initial.
  - refine (bool_decide_unpack _ _). vm_compute. exact I.
  - intros s h. reflexivity.
  - refine (bool_decide_unpack _ _). vm_compute. exact I.
Defined.

Section Frames.

Variable code : ModalSubscriber → list Invocation → Callback.

Lemma serve_subscribe_world s w :
  (serve code (Subscribe s) w).2 = (subscribe code s w).2.
Proof.
  simpl. unfold bind. by destruct (subscribe code s w) as [[h | e] w'].
Qed.

Lemma openModal_others id w k :
  wf w → allRespectful code → k ≠ id →
  lookupModal (openModal code id w).2 k = lookupModal w k.
Proof.
  intros Hwf Hr Hk. destruct (openModal_spec code id w) as (T & _ & P & _).
  apply lookupModal_frame; [done | |].
  - etrans; [| by apply P]. by apply prefix_app_r.
  - rewrite T. simpl. by rewrite lookup_insert_ne.
Qed.

Lemma closeModal_others id w k :
  wf w → allRespectful code → k ≠ id →
  lookupModal (closeModal code id w).2 k = lookupModal w k.
Proof.
  intros Hwf Hr Hk. destruct (lookupModal w id) as [m |] eqn:Hm.
  - by apply (closeModal_closes code id w m).
  - pose proof (closeModal_spec code id w Hwf) as H. simpl in H.
    rewrite Hm in H. by rewrite H.
Qed.

Lemma serve_frame r w id :
  wf w → allRespectful code → ¬ concerns w id r →
  lookupModal (serve code r w).2 id = lookupModal w id.
Proof.
  intros Hwf Hr Hc. destruct r as [k | k | event | s | [s]]; simpl in Hc.
  - apply openModal_others; [done | done | congruence].
  - apply closeModal_others; [done | done | congruence].
  - simpl. destruct (decide (key event = "Escape")) as [Hk | Hk];
      [| by rewrite onKeydown_other].
    rewrite onKeydown_escape by done.
    destruct (last _) as [modalId |]; [| done].
    destruct (String.eqb modalId ""); [done |].
    apply closeModal_others; [done | done | congruence].
  - rewrite serve_subscribe_world. by apply subscribe_respectful.
  - done.
Qed.

End Frames.

(** X6: what [isModalOpen(id)] answers changes only through [openModal(id)],
    [closeModal(id)] and the dismissal signal sent while [id] is the last
    open panel.  Every other request (on other identifiers, a signal that
    closes another panel, subscribing, unsubscribing) leaves the entry of
    [id] as it is, provided the subscribers do not assign through their
    snapshots. *)
Theorem other_requests_leave_entry code (r : Request) (w : World) (id : string) :
  wf w → allRespectful code → ¬ concerns w id r →
  lookupModal (serve code r w).2 id = lookupModal w id ∧
  isOpenIn (serve code r w).2 id = isOpenIn w id.
Proof.
  intros Hwf Hr Hc. pose proof (serve_frame code r w id Hwf Hr Hc) as H.
  split; [done |]. unfold isOpenIn. by rewrite H.
Qed.

Lemma other_requests_leave_entry_witness :
  isOpenIn (serve deletingCode (Keydown escape)
              (run deletingCode [Subscribe 1; OpenModal "a"; OpenModal "b"] initial)).2 "a"
  = isOpenIn (run deletingCode [Subscribe 1; OpenModal "a"; OpenModal "b"] initial) "a".
Proof.
  apply other_requests_leave_entry.
  - apply wf_run, wf_initial.
  - intros s h. unfold deletingCode. by destruct (Nat.eqb s 1).
  - vm_compute. discriminate.
Defined.

(** X7: subscribing and then calling the returned handle is a round trip
    for a function that was not subscribed before: the mediator's fields,
    the order of the other subscribers included, are as they were. *)
Theorem subscribe_unsubscribe_round_trip code (f : ModalSubscriber) (w : World)
    (h : Unsubscribe) :
  f ∉ subscribers (this w) →
  (subscribe code f w).1 = Returned h →
  this (unsubscribe h (subscribe code f w).2).2 = this w.
Proof.
  intros Hf Hh. destruct (subscribe_spec code f w) as (T & _ & O & _).
  rewrite Hh in O. destruct (throws (code f (calls w))); [done |].
  injection O as ->. simpl. rewrite T. simpl.
  unfold setAdd. rewrite decide_False by done.
  unfold setDelete. rewrite filter_app, filter_cons_False by (intros H; by apply H).
  rewrite filter_nil, app_nil_r.
  rewrite (filter_ne_absent f) by done. by destruct (this w).
Qed.

Lemma subscribe_unsubscribe_round_trip_witness :
  this (unsubscribe (UnsubscribeOf 2)
          (subscribe quietCode 2 (run quietCode sampleRequests initial)).2).2
  = this (run quietCode sampleRequests initial).
Proof.
  apply subscribe_unsubscribe_round_trip.
  - refine (bool_decide_unpack _ _). vm_compute. exact I.
  - vm_compute; reflexivity.
Defined.

Section PassiveSubscribers.

Variable code : ModalSubscriber → list Invocation → Callback.
Hypothesis code_passive : passive code.

Lemma invoke_passive s m w :
  invoke code s m w
  = (Returned m, mkWorld (heap w) (this w)
                   (calls w ++ [mkInvocation s (contents (heap w) m)])).
Proof. unfold invoke. rewrite code_passive. reflexivity. Qed.

Lemma forEach_passive subs m w :
  forEach code subs m w
  = (Returned tt,
     mkWorld (heap w) (this w)
       (calls w ++ map (λ s, mkInvocation s (contents (heap w) m)) subs)).
Proof.
  revert w. induction subs as [| s subs IH]; intros w; simpl.
  - unfold ret. rewrite app_nil_r. by destruct w.
  - unfold bind. rewrite invoke_passive, IH. simpl.
    by rewrite <- app_assoc.
Qed.

Lemma notify_passive w :
  notify code w
  = (Returned tt,
     mkWorld (heap w) (this w)
       (calls w ++ map (λ s, mkInvocation s (contents (heap w) (modals (this w))))
                       (subscribers (this w)))).
Proof. rewrite notify_unfold. apply forEach_passive. Qed.

Lemma lastCall_fresh s old (c : Invocation) :
  callee c = s → lastCall s (old ++ [c]) = Some c.
Proof.
  intros Hc. unfold lastCall.
  rewrite filter_app, filter_cons_True by done. by rewrite filter_nil, last_snoc.
Qed.

Lemma lastCall_other s old (c : Invocation) :
  callee c ≠ s → lastCall s (old ++ [c]) = lastCall s old.
Proof.
  intros Hc. unfold lastCall.
  rewrite filter_app, filter_cons_False by done. by rewrite filter_nil, app_nil_r.
Qed.

Lemma lastCall_fanout s old C subs :
  s ∈ subs →
  lastCall s (old ++ map (λ s, mkInvocation s C) subs) = Some (mkInvocation s C).
Proof.
  revert old. induction subs as [| x subs IH] using rev_ind; intros old Hs.
  - by apply elem_of_nil in Hs.
  - rewrite map_app, app_assoc. simpl.
    destruct (decide (x = s)) as [-> | Hne]; [by apply lastCall_fresh |].
    rewrite lastCall_other by done. apply IH.
    apply elem_of_app in Hs as [? | ->%list_elem_of_singleton]; done.
Qed.

Lemma informed_notify w : informed (notify code w).2.
Proof.
  rewrite notify_passive. unfold informed. simpl. intros s Hs.
  eexists. split; [by apply lastCall_fanout | done].
Qed.

Lemma informed_closeModal id w : informed w → informed (closeModal code id w).2.
Proof.
  intros Hw. destruct (closeModal_cases code id w) as [H | (mid & H & _)];
    rewrite H; [done | apply informed_notify].
Qed.

Lemma informed_serve r w : informed w → informed (serve code r w).2.
Proof.
  intros Hw. destruct r as [id | id | event | s | [s]].
  - simpl. rewrite openModal_unfold. apply informed_notify.
  - by apply informed_closeModal.
  - simpl. destruct (onKeydown_cases code event w) as [H | [modalId H]];
      rewrite H; [done | by apply informed_closeModal].
  - rewrite serve_subscribe_world, subscribe_unfold, invoke_passive.
    unfold informed. simpl. intros s' [-> | Hs']%setAdd_elem.
    + eexists. split; [by apply lastCall_fresh | done].
    + destruct (decide (s' = s)) as [-> | Hne].
      * eexists. split; [by apply lastCall_fresh | done].
      * destruct (Hw s' Hs') as (c & Hc & Hrec). exists c.
        split; [| done]. rewrite lastCall_other; [done | simpl; congruence].
  - unfold informed. simpl. intros s' [_ Hs']%setDelete_elem. by apply Hw.
Qed.

Lemma informed_run rs w : informed w → informed (run code rs w).
Proof.
  revert w. induction rs as [| r rs IH]; intros w Hw; [done |].
  rewrite run_cons. by apply IH, informed_serve.
Qed.

Lemma informed_initial : informed initial.
Proof. intros s Hs. by apply elem_of_nil in Hs. Qed.

End PassiveSubscribers.

(** X8: no registered subscriber is ever out of date.  When all subscribers
    only read what they are given and do not throw, then in every reachable
    state every registered subscriber has been called, and the map shown to
    it in its last call reads exactly as the store does now. *)
Theorem subscribers_are_up_to_date code (rs : list Request) (s : ModalSubscriber) :
  passive code →
  s ∈ subscribers (this (run code rs initial)) →
  ∃ c, lastCall s (calls (run code rs initial)) = Some c ∧
       received c = contents (heap (run code rs initial))
                      (modals (this (run code rs initial))).
Proof.
  intros Hp Hs. by apply (informed_run code Hp rs initial (informed_initial)).
Qed.

Lemma subscribers_are_up_to_date_witness :
  ∃ c, lastCall 1 (calls (run quietCode sampleRequests initial)) = Some c ∧
       received c = contents (heap (run quietCode sampleRequests initial))
                      (modals (this (run quietCode sampleRequests initial))).
Proof.
  apply subscribers_are_up_to_date.
  - intros s h. reflexivity.
  - refine (bool_decide_unpack _ _). vm_compute. exact I.
Defined.

(** X9: the hook's subscriber keeps the component in step with the
    mediator.  When all subscribers are like the hook's (they read and do
    not throw), then in every reachable state, for every registered
    subscriber and every identifier, the value the hook's subscriber passed
    to [setIsOpen] in its last call is what [isModalOpen] answers now; for
    an identifier without entry that value is [false]. *)
Theorem hook_state_follows_mediator code (rs : list Request) (s : ModalSubscriber)
    (modalId : string) :
  passive code →
  s ∈ subscribers (this (run code rs initial)) →
  ∃ c, lastCall s (calls (run code rs initial)) = Some c ∧
       hookSubscriber modalId (received c) = isOpenIn (run code rs initial) modalId ∧
       (modals (this (run code rs initial)) !! modalId = None →
        hookSubscriber modalId (received c) = false).
Proof.
  intros Hp Hs.
  destruct (informed_run code Hp rs initial informed_initial s Hs) as (c & Hc & Hrec).
  exists c. split; [done |].
  assert (hookSubscriber modalId (received c)
          = isOpenIn (run code rs initial) modalId) as Hsync.
  { unfold hookSubscriber, isOpenIn, lookupModal. by rewrite Hrec, contents_lookup. }
  split; [done |]. intros Hnone. rewrite Hsync.
  unfold isOpenIn, lookupModal. by rewrite Hnone.
Qed.

Lemma hook_state_follows_mediator_witness :
  ∃ c, lastCall 3 (calls (run quietCode sampleRequests initial)) = Some c ∧
       hookSubscriber "b" (received c) = false ∧
       hookSubscriber "a" (received c) = true.
Proof.
  destruct (hook_state_follows_mediator quietCode sampleRequests 3 "b")
    as (c & Hc & Hb & _).
  - intros s h. reflexivity.
  - refine (bool_decide_unpack _ _). vm_compute. exact I.
  - exists c. split; [done |]. split; [rewrite Hb; vm_compute; reflexivity |].
    destruct (hook_state_follows_mediator quietCode sampleRequests 3 "a")
      as (c' & Hc' & Ha & _).
    + intros s h. reflexivity.
    + refine (bool_decide_unpack _ _). vm_compute. exact I.
    + assert (c' = c) as -> by congruence. rewrite Ha. vm_compute; reflexivity.
Defined.

Section Consuming.

Variable code : ModalSubscriber → list Invocation → Callback.

Lemma openModal_opens id w :
  allRespectful code → isOpenIn (openModal code id w).2 id = true.
Proof.
  intros Hr. destruct (openModal_spec code id w) as (T & _ & P & _).
  unfold isOpenIn.
  rewrite (lookupModal_fresh w _ id (ModalState.mk id true)); [done | by apply P |].
  rewrite T. simpl. by rewrite lookup_insert_eq.
Qed.

Lemma closeModal_closed id w :
  wf w → allRespectful code → isOpenIn (closeModal code id w).2 id = false.
Proof.
  intros Hwf Hr. destruct (lookupModal w id) as [m |] eqn:Hm.
  - destruct (closeModal_closes code id w m Hwf Hr Hm) as [H _].
    unfold isOpenIn. by rewrite H.
  - pose proof (closeModal_spec code id w Hwf) as H. simpl in H.
    rewrite Hm in H. rewrite H. unfold isOpenIn. simpl. by rewrite Hm.
Qed.

Lemma hookInitialState_unfold modalId defaultOpen w :
  hookInitialState code modalId defaultOpen w =
  if negb (isOpenIn w modalId) && defaultOpen then
    match openModal code modalId w with
    | (Returned _, w') => (Returned true, w')
    | (Thrown s, w') => (Thrown s, w')
    end
  else (Returned (isOpenIn w modalId), w).
Proof.
  unfold hookInitialState, bind. rewrite isModalOpen_spec.
  by destruct (negb (isOpenIn w modalId) && defaultOpen).
Qed.

Lemma findModalChild_first pre id rest :
  (∀ c, c ∈ pre → ∀ k, c ≠ ModalElement k) →
  findModalChild (pre ++ ModalElement id :: rest) = Some id.
Proof.
  induction pre as [| c pre IH]; intros Hpre; [done |].
  simpl. destruct c as [k | | t].
  - exfalso. eapply Hpre; [left | done].
  - apply IH. intros c Hc. apply Hpre. by right.
  - apply IH. intros c Hc. apply Hpre. by right.
Qed.

(** In a fan-out the subscribers share one map: what the first deletes from
    it, the second does not get to see. *)
Lemma forEach_shared s1 s2 rest m w k :
  code s1 (calls w) = mkCallback [MapDelete k] false →
  ∃ more, calls (forEach code (s1 :: s2 :: rest) m w).2
          = calls w ++ mkInvocation s1 (contents (heap w) m)
                    :: mkInvocation s2 (contents (heap w) (delete k m)) :: more.
Proof.
  intros Hcode. cbn [forEach]. unfold bind at 1.
  assert (invoke code s1 m w
          = (Returned (delete k m),
             record (mkInvocation s1 (contents (heap w) m)) w)) as ->.
  { unfold invoke. rewrite Hcode. reflexivity. }
  set (w1 := record _ w). unfold bind.
  destruct (invoke_spec code s2 (delete k m) w1) as (C2 & _ & _).
  destruct (invoke code s2 (delete k m) w1) as [[m2 | e] w2]; simpl in C2.
  - destruct (forEach_spec code rest m2 w2) as (new & C & _).
    exists new. rewrite C, C2. simpl. by rewrite <- !app_assoc.
  - exists []. simpl. rewrite C2. simpl. by rewrite <- !app_assoc.
Qed.

(** With nobody subscribed, opening and then closing an identifier leaves
    it recorded as closed and the other entries as they were. *)
Lemma open_close_alone id w :
  wf w → subscribers (this w) = [] →
  wf (closeModal code id (openModal code id w).2).2 ∧
  subscribers (this (closeModal code id (openModal code id w).2).2) = [] ∧
  lookupModal (closeModal code id (openModal code id w).2).2 id
    = Some (ModalState.mk id false) ∧
  ∀ k, k ≠ id →
    lookupModal (closeModal code id (openModal code id w).2).2 k = lookupModal w k.
Proof.
  intros Hwf Hs. split; [by apply wf_closeModal, wf_openModal |].
  rewrite openModal_unfold, notify_alone by done. simpl.
  erewrite closeModal_present;
    [| simpl; apply lookup_insert_eq
     | simpl; by rewrite lookup_app_r, Nat.sub_diag].
  rewrite notify_alone by done. simpl. split; [done |]. split.
  - unfold lookupModal. simpl. rewrite lookup_insert_eq. simpl.
    by rewrite lookup_app_r, Nat.sub_diag.
  - intros k Hk. apply lookupModal_frame; [done | |]; simpl.
    + rewrite <- app_assoc. by apply prefix_app_r.
    + by rewrite !lookup_insert_ne.
Qed.

Lemma run_open_close ids w :
  wf w → subscribers (this w) = [] →
  ∀ id,
    (id ∈ ids →
     lookupModal (run code (flat_map (λ i, [OpenModal i; CloseModal i]) ids) w) id
       = Some (ModalState.mk id false)) ∧
    (id ∉ ids →
     lookupModal (run code (flat_map (λ i, [OpenModal i; CloseModal i]) ids) w) id
       = lookupModal w id).
Proof.
  revert w. induction ids as [| i ids IH]; intros w Hwf Hs id.
  - split; [by intros ?%elem_of_nil | done].
  - simpl flat_map. rewrite !run_cons. simpl serve.
    destruct (open_close_alone i w Hwf Hs) as (Hwf2 & Hs2 & Hi & Hothers).
    destruct (IH _ Hwf2 Hs2 id) as [Hin Hout]. split.
    + intros Hid. destruct (decide (id ∈ ids)) as [Hin' | Hout']; [by apply Hin |].
      rewrite Hout by done.
      apply elem_of_cons in Hid as [-> | ?]; [done | done].
    + intros [Hne Hout']%not_elem_of_cons. rewrite Hout by done. by apply Hothers.
Qed.

End Consuming.

(** X10: the initial state the hook computes agrees with the mediator.
    When the initialiser returns (with subscribers that do not assign
    through their snapshots), the value it returns is what [isModalOpen]
    answers afterwards.  It changes the mediator only when [defaultOpen] is
    set and the panel is not open: then it does what [openModal] does;
    otherwise (no [defaultOpen], or a panel that is open already) it leaves
    the state untouched, so nobody is notified and the panel keeps its
    place in [openOrder]. *)
Theorem hookInitialState_agrees code (modalId : string) (defaultOpen : bool) (w : World) :
  allRespectful code →
  (∀ b, (hookInitialState code modalId defaultOpen w).1 = Returned b →
        b = isOpenIn (hookInitialState code modalId defaultOpen w).2 modalId) ∧
  (defaultOpen = false ∨ isOpenIn w modalId = true →
   hookInitialState code modalId defaultOpen w = (Returned (isOpenIn w modalId), w)) ∧
  (defaultOpen = true → isOpenIn w modalId = false →
   (hookInitialState code modalId defaultOpen w).2 = (openModal code modalId w).2 ∧
   ((openModal code modalId w).1 = Returned tt →
    (hookInitialState code modalId defaultOpen w).1 = Returned true)).
Proof.
  intros Hr. rewrite hookInitialState_unfold.
  pose proof (openModal_opens code modalId w Hr) as Hopens.
  split; [| split].
  - intros b. destruct (negb (isOpenIn w modalId) && defaultOpen); [| by intros [= <-]].
    destruct (openModal code modalId w) as [[u | e] w']; simpl in *; [| done].
    intros [= <-]. done.
  - intros [-> | ->]; [by rewrite andb_false_r | done].
  - intros -> ->. simpl.
    split; [by destruct (openModal code modalId w) as [[u | e] w'] |].
    by destruct (openModal code modalId w) as [[u | e] w'].
Qed.

Lemma hookInitialState_agrees_witness :
  hookInitialState quietCode "a" true (run quietCode sampleRequests initial)
    = (Returned true, run quietCode sampleRequests initial) ∧
  isOpenIn (hookInitialState quietCode "b" true
              (run quietCode sampleRequests initial)).2 "b" = true.
Proof.
  destruct (hookInitialState_agrees quietCode "a" true
              (run quietCode sampleRequests initial)) as (_ & Hkeep & _);
    [intros s h; reflexivity |].
  destruct (hookInitialState_agrees quietCode "b" true
              (run quietCode sampleRequests initial)) as (Hagree & _ & _);
    [intros s h; reflexivity |].
  split.
  - rewrite Hkeep; [vm_compute; reflexivity | right; vm_compute; reflexivity].
  - symmetry. apply Hagree. vm_compute; reflexivity.
Defined.

(** X11: a click on the backdrop reaches the mediator only if it hit the
    backdrop itself and the backdrop has a [ComposableModal] child with a
    non-empty [id]; otherwise nothing happens, with or without an [onClick]
    prop.  When it does, an [onClick] prop replaces the default; the
    default closes the first [ComposableModal] child, and that one only:
    afterwards it is closed and every other entry is as it was. *)
Theorem backdrop_click_closes_first_modal code (children : list ReactNode)
    (onClick : option (Op unit)) (event : MouseEvent) (w : World) :
  (targetIsCurrentTarget event = false ∨ findModalChild children = None ∨
   findModalChild children = Some "" →
   handleBackdropClick code children onClick event w = (Returned tt, w)) ∧
  (∀ pre id rest, id ≠ "" → targetIsCurrentTarget event = true →
     children = pre ++ ModalElement id :: rest →
     (∀ c, c ∈ pre → ∀ k, c ≠ ModalElement k) →
     (∀ handler, handleBackdropClick code children (Some handler) event w = handler w) ∧
     handleBackdropClick code children None event w = closeModal code id w ∧
     (wf w → allRespectful code →
      isOpenIn (handleBackdropClick code children None event w).2 id = false ∧
      ∀ k, k ≠ id →
        lookupModal (handleBackdropClick code children None event w).2 k
          = lookupModal w k)).
Proof.
  split.
  - unfold handleBackdropClick. intros [-> | [-> | ->]]; [done | |].
    + by rewrite andb_false_r.
    + by rewrite andb_false_r.
  - intros pre id rest Hid Hdirect -> Hpre.
    unfold handleBackdropClick. rewrite findModalChild_first by done.
    rewrite Hdirect. simpl. destruct (String.eqb_spec id ""); [done |]. simpl.
    split; [done |]. split; [done |]. intros Hwf Hr.
    split; [by apply closeModal_closed | intros k Hk; by apply closeModal_others].
Qed.

Lemma backdrop_click_closes_first_modal_witness :
  isOpenIn (handleBackdropClick quietCode
              [TextNode "x"; ModalElement "a"; ModalElement "b"] None
              (mkMouseEvent true) (run quietCode sampleRequests initial)).2 "a"
  = false.
Proof.
  destruct (backdrop_click_closes_first_modal quietCode
              [TextNode "x"; ModalElement "a"; ModalElement "b"] None
              (mkMouseEvent true) (run quietCode sampleRequests initial))
    as [_ H].
  destruct (H [TextNode "x"] "a" [ModalElement "b"]) as (_ & _ & Hclosed).
  - discriminate.
  - reflexivity.
  - reflexivity.
  - intros c ->%list_elem_of_singleton k. discriminate.
  - apply Hclosed; [apply wf_run, wf_initial | intros s h; reflexivity].
Defined.

(** X12: the subscribers of one fan-out share one map.  If the first
    registered subscriber deletes [id] from the map it is given while
    [openModal(id)] notifies, the second subscriber is shown a map without
    [id], although the first was shown [id] open and the store does hold
    the entry. *)
Theorem fanout_shares_one_map code (id : string) (w : World)
    (s1 s2 : ModalSubscriber) (rest : list ModalSubscriber) :
  subscribers (this w) = s1 :: s2 :: rest →
  code s1 (calls w) = mkCallback [MapDelete id] false →
  is_Some (modals (this (openModal code id w).2) !! id) ∧
  ∃ c1 c2 more,
    newCalls w (openModal code id w).2 = c1 :: c2 :: more ∧
    callee c1 = s1 ∧ callee c2 = s2 ∧
    received c1 !! id = Some (ModalState.mk id true) ∧
    received c2 !! id = None.
Proof.
  intros Hsubs Hcode. split.
  { destruct (openModal_spec code id w) as (T & _). rewrite T. simpl.
    rewrite lookup_insert_eq. eauto. }
  rewrite openModal_unfold, notify_unfold. simpl. rewrite Hsubs.
  match goal with
  | |- context [forEach code _ ?m ?mid] =>
      destruct (forEach_shared code s1 s2 rest m mid id Hcode) as (more & C)
  end.
  do 3 eexists. split; [apply newCalls_app; exact C |]. simpl.
  split; [done |]. split; [done |]. rewrite !contents_lookup. split.
  - rewrite lookup_insert_eq. simpl. by rewrite lookup_app_r, Nat.sub_diag.
  - by rewrite lookup_delete_eq.
Qed.

Lemma fanout_shares_one_map_witness :
  ∃ c1 c2 more,
    newCalls (run deletingCode [Subscribe 1; Subscribe 2] initial)
      (openModal deletingCode "a"
         (run deletingCode [Subscribe 1; Subscribe 2] initial)).2
    = c1 :: c2 :: more ∧
    callee c1 = 1 ∧ callee c2 = 2 ∧
    received c1 !! "a" = Some (ModalState.mk "a" true) ∧
    received c2 !! "a" = None.
Proof.
  apply (fanout_shares_one_map deletingCode "a"
           (run deletingCode [Subscribe 1; Subscribe 2] initial) 1 2 []).
  - vm_compute; reflexivity.
  - reflexivity.
Defined.

(** X13: closed panels are kept.  On a new mediator, opening and closing
    each identifier of a list in turn leaves every one of them in the store,
    recorded as closed, and creates no other entry. *)
Theorem closed_panels_are_kept code (ids : list string) (id : string) :
  (id ∈ ids →
   lookupModal (run code (flat_map (λ i, [OpenModal i; CloseModal i]) ids) initial) id
     = Some (ModalState.mk id false)) ∧
  (id ∉ ids →
   lookupModal (run code (flat_map (λ i, [OpenModal i; CloseModal i]) ids) initial) id
     = None).
Proof.
  destruct (run_open_close code ids initial wf_initial eq_refl id) as [Hin Hout].
  split; [done |]. intros Hid. by rewrite Hout.
Qed.

Lemma closed_panels_are_kept_witness :
  lookupModal (run quietCode
                 (flat_map (λ i, [OpenModal i; CloseModal i]) ["x"; "y"; "x"; "z"])
                 initial) "x"
  = Some (ModalState.mk "x" false).
Proof.
  apply closed_panels_are_kept.
  refine (bool_decide_unpack _ _). vm_compute. exact I.
Defined.
